(** * Lexical scopes of go/types: a shallow embedding of [scope.go]

    The Go file [go/types/scope.go] implements the symbol table of the type
    checker: a [Scope] is a heap cell with a link to its parent scope and a
    slice of objects in insertion order.  This development embeds the file's
    operations ([NewScope], [Parent], [NumEntries], [IsEmpty], [At], [Index],
    [Lookup], [LookupParent], [Insert], [String]) and proves the properties
    the specification states about them.

    Modelling decisions.
    - [*Scope] and [*Package] are pointers that may be nil: [option].
      Scopes live in a store (a [gmap] from addresses to cells) because
      [Insert] mutates a scope that children reach through their parent link.
    - Go's [int] is modelled as [Z]; every integer the code computes is a
      slice index or [-1], so no wrap-around can occur.
    - A run-time panic (nil dereference, index out of range) is the result
      [Panic]; everything else is [Ok].
    - [for s != nil] in [LookupParent] is a loop over a pointer chain that
      could be cyclic in an arbitrary store, hence fuel; [None] means the
      fuel ran out, and the theorems give the fuel that suffices. *)

From Stdlib Require Import ZArith Lia.
From stdpp Require Import base option list strings pretty gmap relations.

Local Open Scope Z_scope.

(** ** Outcomes *)

Inductive result (A : Type) : Type :=
  | Ok (a : A)
  | Panic.
Arguments Ok {A} a.
Arguments Panic {A}.

Definition bind {A B : Type} (r : result A) (k : A → result B) : result B :=
  match r with
  | Ok a => k a
  | Panic => Panic
  end.

Notation "'do' x <- e ; k" := (bind e (fun x => k))
  (at level 10, x name, e at level 100, k at level 200).

(** ** Data model *)

(** Addresses of scope cells ([*Scope] is [option sref]). *)
Abbreviation sref := positive (only parsing).

(** [type Package]: the only field [scope.go] reads is [path].  Two distinct
    package values may carry the same path (packages are not canonicalized),
    which is why [Index] compares paths. *)
Record Package : Type := mkPackage { path : string }.

(** [type Object interface]: [scope.go] uses the methods [Name()], [Pkg()]
    and [setParent].  The concrete variants live outside the file; a non-nil
    object is modelled by its identity [oid] (the pointer held by the
    interface value) together with what [Name()] and [Pkg()] return.  The
    mutable back-reference written by [setParent] is kept in the store. *)
Record Object : Type := mkObject {
  oid : positive;
  Name : string;
  Pkg : option Package
}.

(** [type Scope struct { parent *Scope; entries []Object }] *)
Record Scope : Type := mkScope {
  parent : option sref;
  entries : list Object
}.

(** The store: the scope cells, and for every object identity the scope its
    back-reference points to (absent: nil). *)
Record state : Type := mkState {
  scopes : gmap positive Scope;
  parents : gmap positive positive
}.

Definition empty_state : state := mkState ∅ ∅.

#[global] Instance Package_eq_dec : EqDecision Package.
Proof. solve_decision. Defined.
#[global] Instance Object_eq_dec : EqDecision Object.
Proof. solve_decision. Defined.
#[global] Instance result_eq_dec {A} `{EqDecision A} : EqDecision (result A).
Proof. solve_decision. Defined.

(** Modelled from the spec: [Object.setParent] and [Object.Parent] are
    declared outside [scope.go].  The specification describes the capability
    as a single-assignment owning-scope back-reference on the object, which
    accepts a single owning-scope assignment: the first call records the
    scope, and a call on an object that already has an owner leaves the
    back-reference as it is. *)
Definition setParent (obj : Object) (s : sref) (st : state) : state :=
  match parents st !! oid obj with
  | Some _ => st
  | None => mkState (scopes st) (<[oid obj := s]> (parents st))
  end.

Definition ObjParent (st : state) (obj : Object) : option sref :=
  parents st !! oid obj.

(** ** Operations of [scope.go] *)

(** [func NewScope(parent *Scope) *Scope { return &Scope{parent, nil} }]
    allocates a cell at an address not in use. *)
Definition NewScope (st : state) (p : option sref) : state * sref :=
  let r := fresh (dom (scopes st)) in
  (mkState (<[r := mkScope p []]> (scopes st)) (parents st), r).

(** Reading the cell behind a scope pointer; nil (and an address that holds
    no cell, which a Go program cannot produce) faults. *)
Definition deref (st : state) (s : option sref) : result Scope :=
  match s with
  | None => Panic
  | Some r =>
      match scopes st !! r with
      | Some sc => Ok sc
      | None => Panic
      end
  end.

(** [func (s *Scope) Parent() *Scope { return s.parent }] *)
Definition Parent (st : state) (s : option sref) : result (option sref) :=
  do sc <- deref st s; Ok (parent sc).

(** [func (s *Scope) NumEntries() int] *)
Definition NumEntries (st : state) (s : option sref) : result Z :=
  match s with
  | None => Ok 0
  | Some _ => do sc <- deref st s; Ok (Z.of_nat (length (entries sc)))
  end.

(** [func (s *Scope) IsEmpty() bool] *)
Definition IsEmpty (st : state) (s : option sref) : result bool :=
  match s with
  | None => Ok true
  | Some _ =>
      do sc <- deref st s; Ok (bool_decide (Z.of_nat (length (entries sc)) = 0))
  end.

(** [func (s *Scope) At(i int) Object { return s.entries[i] }]: faults on a
    nil receiver and on an index outside [0, len). *)
Definition At (st : state) (s : option sref) (i : Z) : result Object :=
  do sc <- deref st s;
  if bool_decide (0 ≤ i)
  then match entries sc !! Z.to_nat i with
       | Some obj => Ok obj
       | None => Panic
       end
  else Panic.

(** [ast.IsExported] belongs to the Go standard library (it tests the first
    rune of the name with [unicode.IsUpper]); the development is parametric
    in it. *)
Class ExportRule : Type := IsExported : string → bool.

(** [fmt]'s verbs [%p] (the address of the scope) and [%T] (the dynamic type
    of an object), used by [String] only. *)
Class Fmt : Type := {
  fmt_pointer : positive → string;
  fmt_type : Object → string
}.

Section Operations.

Context {rule : ExportRule}.

(** The fast path of [Index], entries [es] being scanned from position [i]:
[[
    for i, obj := range s.entries {
        if obj.Name() == name { return i }
    }
    return -1
]] *)
Fixpoint index_name (name : string) (es : list Object) (i : Z) : Z :=
  match es with
  | [] => -1
  | obj :: es' =>
      if bool_decide (Name obj = name) then i
      else index_name name es' (i + 1)
  end.

(** The slow path of [Index]; [&&] and [||] evaluate left to right and stop
    early, and [obj.Pkg().path] faults when [obj.Pkg()] is nil:
[[
    for i, obj := range s.entries {
        if obj.Name() == name &&
           (ast.IsExported(name) || obj.Pkg().path == pkg.path) { return i }
    }
    return -1
]] *)
Fixpoint index_pkg (pkg : Package) (name : string) (es : list Object) (i : Z)
  : result Z :=
  match es with
  | [] => Ok (-1)
  | obj :: es' =>
      if bool_decide (Name obj = name) then
        if IsExported name then Ok i
        else match Pkg obj with
             | None => Panic
             | Some p =>
                 if bool_decide (path p = path pkg) then Ok i
                 else index_pkg pkg name es' (i + 1)
             end
      else index_pkg pkg name es' (i + 1)
  end.

(** [func (s *Scope) Index(pkg *Package, name string) int] *)
Definition Index (st : state) (s : option sref) (pkg : option Package)
    (name : string) : result Z :=
  match s with
  | None => Ok (-1)
  | Some _ =>
      do sc <- deref st s;
      match pkg with
      | None => Ok (index_name name (entries sc) 0)
      | Some q => index_pkg q name (entries sc) 0
      end
  end.

(** [func (s *Scope) Lookup(pkg *Package, name string) Object]; the result
    [None] is the nil object. *)
Definition Lookup (st : state) (s : option sref) (pkg : option Package)
    (name : string) : result (option Object) :=
  do i <- Index st s pkg name;
  if bool_decide (0 ≤ i) then do obj <- At st s i; Ok (Some obj)
  else Ok None.

(** [func (s *Scope) LookupParent(name string) Object]:
[[
    for s != nil {
        if i := s.Index(nil, name); i >= 0 { return s.At(i) }
        s = s.parent
    }
    return nil
]]
    One unit of fuel pays for one iteration of the loop body. *)
Fixpoint LookupParent (fuel : nat) (st : state) (s : option sref)
    (name : string) : option (result (option Object)) :=
  match s with
  | None => Some (Ok None)
  | Some r =>
      match fuel with
      | O => None
      | S fuel' =>
          match Index st s None name with
          | Panic => Some Panic
          | Ok i =>
              if bool_decide (0 ≤ i)
              then Some (do obj <- At st s i; Ok (Some obj))
              else match Parent st s with
                   | Panic => Some Panic
                   | Ok p => LookupParent fuel' st p name
                   end
          end
      end
  end.

(** The same loop, also reporting the scopes whose body iteration ran, in
    the order in which they were visited. *)
Fixpoint LookupParent_visits (fuel : nat) (st : state) (s : option sref)
    (name : string) : option (list sref * result (option Object)) :=
  match s with
  | None => Some ([], Ok None)
  | Some r =>
      match fuel with
      | O => None
      | S fuel' =>
          match Index st s None name with
          | Panic => Some ([r], Panic)
          | Ok i =>
              if bool_decide (0 ≤ i)
              then Some ([r], do obj <- At st s i; Ok (Some obj))
              else match Parent st s with
                   | Panic => Some ([r], Panic)
                   | Ok p =>
                       match LookupParent_visits fuel' st p name with
                       | Some (vs, res) => Some (r :: vs, res)
                       | None => None
                       end
                   end
          end
      end
  end.

(** [func (s *Scope) Insert(obj Object) Object]:
[[
    if alt := s.Lookup(obj.Pkg(), obj.Name()); alt != nil { return alt }
    s.entries = append(s.entries, obj)
    obj.setParent(s)
    return nil
]]
    [obj] is an interface value: calling a method on the nil interface
    faults.  [s.entries] faults on a nil receiver. *)
Definition Insert (st : state) (s : option sref) (obj : option Object)
    : result (state * option Object) :=
  match obj with
  | None => Panic
  | Some o =>
      do alt <- Lookup st s (Pkg o) (Name o);
      match alt with
      | Some a => Ok (st, Some a)
      | None =>
          match s with
          | None => Panic
          | Some r =>
              do sc <- deref st s;
              let st1 :=
                mkState (<[r := mkScope (parent sc) (entries sc ++ [o])]>
                           (scopes st))
                        (parents st) in
              Ok (setParent o r st1, None)
          end
      end
  end.

End Operations.

(** [func (s *Scope) String() string]; named [Scope_String] because [String]
    is the constructor of Rocq's strings. *)
Definition tab : string := String (Ascii.ascii_of_nat 9) EmptyString.
Definition newline : string := String (Ascii.ascii_of_nat 10) EmptyString.

Definition Scope_String `{Fmt} (st : state) (s : option sref)
    : result string :=
  match s with
  | None => Ok "scope {}"
  | Some r =>
      do sc <- deref st s;
      let header := "scope " +:+ fmt_pointer r +:+ " {" in
      let body :=
        if bool_decide (0 < Z.of_nat (length (entries sc)))
        then newline +:+
             String.concat ""
               (map (λ obj, tab +:+ Name obj +:+ tab +:+ fmt_type obj
                              +:+ newline)
                    (entries sc))
        else "" in
      Ok (header +:+ body +:+ "}" +:+ newline)
  end.

(** ** Drivers and the vocabulary of the specification *)

(** A driver declaring objects one after the other in the same scope; the
    second component collects what each [Insert] returned. *)
Fixpoint insert_all `{ExportRule} (st : state) (s : option sref)
    (objs : list Object) : result (state * list (option Object)) :=
  match objs with
  | [] => Ok (st, [])
  | o :: objs' =>
      do r <- Insert st s (Some o);
      do r' <- insert_all r.1 s objs';
      Ok (r'.1, r.2 :: r'.2)
  end.

(** The identity rule in the words of the specification.  An entry matches
    an unqualified query when its name equals the query name. *)
Definition name_match (name : string) (obj : Object) : Prop :=
  Name obj = name.

(** An entry matches a qualified query when its name equals the query name
    and the name is exported or the entry's originating package is the
    qualifier (package identities are compared by their path). *)
Definition qualified_match `{ExportRule} (q : Package) (name : string)
    (obj : Object) : Prop :=
  Name obj = name ∧
  (IsExported name = true ∨ path <$> Pkg obj = Some (path q)).

Definition ident_match `{ExportRule} (q : option Package) (name : string)
    (obj : Object) : Prop :=
  match q with
  | None => name_match name obj
  | Some q' => qualified_match q' name obj
  end.

(** The entries at which the slow path of [Index] stops scanning: a match,
    or an unexported same-spelled entry without a package. *)
Definition scan_stop `{ExportRule} (q : Package) (name : string)
    (obj : Object) : Prop :=
  Name obj = name ∧
  (IsExported name = true ∨ Pkg obj = None
   ∨ path <$> Pkg obj = Some (path q)).

#[global] Instance name_match_dec name obj : Decision (name_match name obj).
Proof. unfold name_match. apply _. Defined.
#[global] Instance qualified_match_dec `{ExportRule} q name obj :
  Decision (qualified_match q name obj).
Proof. unfold qualified_match. apply _. Defined.
#[global] Instance ident_match_dec `{ExportRule} q name obj :
  Decision (ident_match q name obj).
Proof. destruct q; simpl; apply _. Defined.
#[global] Instance scan_stop_dec `{ExportRule} q name obj :
  Decision (scan_stop q name obj).
Proof. unfold scan_stop. apply _. Defined.

(** [first_match P es i]: [i] is what a first-match scan of [es] for [P]
    answers, the least position of an entry satisfying [P], or [-1] when
    there is none. *)
Definition first_match (P : Object → Prop) (es : list Object) (i : Z)
    : Prop :=
  (i = -1 ∧ ∀ o, o ∈ es → ¬ P o)
  ∨ (0 ≤ i ∧ ∃ o, es !! Z.to_nat i = Some o ∧ P o
       ∧ ∀ j o', es !! j = Some o' → (j < Z.to_nat i)%nat → ¬ P o').

(** The answer of a scan that started counting at [i], from the result of
    [list_find]. *)
Definition found_at (i : Z) (f : option (nat * Object)) : Z :=
  match f with
  | Some (k, _) => i + Z.of_nat k
  | None => -1
  end.

(** The store after a successful insertion of [o] into the scope at [r],
    whose cell was [sc]. *)
Definition appended (st : state) (r : positive) (sc : Scope) (o : Object)
    : state :=
  mkState (<[r := mkScope (parent sc) (entries sc ++ [o])]> (scopes st))
          (match parents st !! oid o with
           | Some _ => parents st
           | None => <[oid o := r]> (parents st)
           end).

(** Objects with pairwise-distinct identities: no object of the list matches
    the query (package, name) of another one. *)
Definition pairwise_distinct `{ExportRule} (objs : list Object) : Prop :=
  ∀ i j a b, i ≠ j → objs !! i = Some a → objs !! j = Some b →
    ¬ ident_match (Pkg b) (Name b) a.

(** In every scope, an entry without a package comes before every other
    entry of the same spelling. *)
Definition nopkg_first (st : state) : Prop :=
  ∀ r sc (i j : nat) a b,
    scopes st !! r = Some sc →
    entries sc !! i = Some a → entries sc !! j = Some b →
    (i < j)%nat → Name a = Name b → Pkg b ≠ None.

(** [segment st s l e]: following the parent links from [s] passes through
    the allocated scopes [l], in this order, and arrives at [e].  The
    ancestor chain of [s] is finite when [segment st s l None] for some [l],
    whose length is the depth of the chain. *)
Inductive segment (st : state) : option sref → list sref → option sref → Prop :=
  | segment_nil s : segment st s [] s
  | segment_cons r sc l e :
      scopes st !! r = Some sc →
      segment st (parent sc) l e →
      segment st (Some r) (r :: l) e.

(** Every allocated scope has a finite ancestor chain. *)
Definition chains_finite (st : state) : Prop :=
  ∀ r, is_Some (scopes st !! r) → ∃ l, segment st (Some r) l None.

(** The states a client of the package can build: scope fields are not
    exported, so a store is produced from the empty one by [NewScope] (whose
    argument is nil or a scope obtained earlier) and by [Insert] calls that
    return. *)
Inductive step `{ExportRule} : state → state → Prop :=
  | step_NewScope st p :
      (∀ r, p = Some r → is_Some (scopes st !! r)) →
      step st (NewScope st p).1
  | step_Insert st s obj st' alt :
      Insert st s obj = Ok (st', alt) →
      step st st'.

Definition reachable `{ExportRule} (st : state) : Prop :=
  rtc step empty_state st.

(** Two entries of one scope are spelled alike only when the name is not
    exported and they come from packages with different paths. *)
Definition unique_identities `{ExportRule} (st : state) : Prop :=
  ∀ r sc (i j : nat) a b,
    scopes st !! r = Some sc →
    entries sc !! i = Some a → entries sc !! j = Some b →
    (i < j)%nat → Name a = Name b →
    IsExported (Name a) = false
    ∧ ∃ p q, Pkg a = Some p ∧ Pkg b = Some q ∧ path p ≠ path q.

(** The objects a driver got declared: those for which [Insert] returned
    nil, in the order of the calls. *)
Fixpoint accepted (objs : list Object) (res : list (option Object))
    : list Object :=
  match objs, res with
  | o :: objs', None :: res' => o :: accepted objs' res'
  | _ :: objs', Some _ :: res' => accepted objs' res'
  | _, _ => []
  end.

(** ** Sample data

    A casing rule for names in ASCII, and a few objects and stores used to
    exercise the theorems. *)
Definition ascii_rule : ExportRule :=
  λ name,
    match name with
    | String c _ =>
        (Nat.leb 65 (Ascii.nat_of_ascii c) && Nat.leb (Ascii.nat_of_ascii c) 90)%bool
    | EmptyString => false
    end.

Definition plain_fmt : Fmt :=
  {| fmt_pointer := λ r, "0x" +:+ pretty (Pos.to_nat r);
     fmt_type := λ _, "*types.Var" |}.

Definition pkg_math : Package := mkPackage "math".
Definition pkg_p : Package := mkPackage "p".
Definition pkg_q : Package := mkPackage "q".
Definition pkg_r : Package := mkPackage "r".

(** A built-in (no package), two unexported objects spelled alike from the
    packages [p] and [q], and exported objects. *)
Definition obj_x_builtin : Object := mkObject 1 "x" None.
Definition obj_x_p : Object := mkObject 2 "x" (Some pkg_p).
Definition obj_x_q : Object := mkObject 3 "x" (Some pkg_q).
Definition obj_Pi_math : Object := mkObject 4 "Pi" (Some pkg_math).
Definition obj_Pi_math' : Object := mkObject 5 "Pi" (Some pkg_math).
Definition obj_Pi_p : Object := mkObject 6 "Pi" (Some pkg_p).

(** The store after [Insert] (the store as it was when the call faults). *)
Definition exec_Insert (st : state) (s : positive) (o : Object) : state :=
  match Insert (rule := ascii_rule) st (Some s) (Some o) with
  | Ok (st', _) => st'
  | Panic => st
  end.

(** One root scope, at address 1. *)
Definition st_root : state := (NewScope empty_state None).1.
(** The root scope declares the built-in [x], as a universe scope does. *)
Definition st_universe : state := exec_Insert st_root 1 obj_x_builtin.
(** The root scope declares [Pi] of package math. *)
Definition st_Pi : state := exec_Insert st_root 1 obj_Pi_math.
(** The root scope declares [x] of [p], then [x] of [q]. *)
Definition st_x_p : state := exec_Insert st_root 1 obj_x_p.
Definition st_x_pq : state := exec_Insert st_x_p 1 obj_x_q.
(** Scope 2 is a child of the root scope 1; no declarations. *)
Definition st_nested : state := (NewScope st_root (Some 1%positive)).1.
(** The parent declares [x] of [p]; the child at 2 is empty, then declares
    its own [x] of [q]. *)
Definition st_parent_x : state := (NewScope st_x_p (Some 1%positive)).1.
Definition st_shadow : state := exec_Insert st_parent_x 2 obj_x_q.
(** Two unrelated root scopes 1 and 2; [x] of [p] is inserted into the
    first, then into the second. *)
Definition st_two_roots : state := (NewScope st_root None).1.
Definition st_x_in_1 : state := exec_Insert st_two_roots 1 obj_x_p.
Definition st_x_in_both : state := exec_Insert st_x_in_1 2 obj_x_p.

(** * Properties *)

Section Properties.

Context `{ExportRule}.

Implicit Types (st : state) (r : positive) (sc : Scope) (obj o : Object).
Implicit Types (es : list Object) (name : string) (q : Package).

(** ** The two scans of [Index] *)

Lemma index_name_find name es i :
  index_name name es i = found_at i (list_find (name_match name) es).
Proof.
  revert i. induction es as [|obj es IH]; intros i; simpl; [done|].
  unfold name_match at 1. case_bool_decide.
  - rewrite decide_True by done. simpl. lia.
  - rewrite decide_False by done. rewrite IH.
    destruct (list_find _ es) as [[k o]|]; simpl; [lia|done].
Qed.

Lemma index_pkg_find q name es i :
  index_pkg q name es i =
    match list_find (scan_stop q name) es with
    | None => Ok (-1)
    | Some (k, obj) =>
        if decide (qualified_match q name obj) then Ok (i + Z.of_nat k)
        else Panic
    end.
Proof.
  revert i. induction es as [|obj es IH]; intros i; simpl; [done|].
  assert (Hskip : ¬ scan_stop q name obj →
    index_pkg q name es (i + 1) =
      match prod_map S id <$> list_find (scan_stop q name) es with
      | None => Ok (-1)
      | Some (k, obj) =>
          if decide (qualified_match q name obj) then Ok (i + Z.of_nat k)
          else Panic
      end).
  { intros _. rewrite IH. destruct (list_find _ es) as [[k o]|]; simpl; [|done].
    destruct (decide _); [f_equal; lia|done]. }
  case_bool_decide as Hn.
  - destruct (IsExported name) eqn:Hex.
    + rewrite decide_True by (split; auto). simpl.
      rewrite decide_True by (split; auto). f_equal; lia.
    + destruct (Pkg obj) as [p|] eqn:Hp.
      * case_bool_decide as Hpath.
        -- rewrite decide_True
             by (split; [done|]; right; right; rewrite Hp, <- Hpath; done).
           simpl. rewrite decide_True
             by (split; [done|]; right; rewrite Hp, <- Hpath; done).
           f_equal; lia.
        -- assert (¬ scan_stop q name obj) as Hns.
           { intros [_ [?|[?|Heq]]]; [congruence..|].
             rewrite Hp in Heq. simpl in Heq. congruence. }
           rewrite decide_False by done. by apply Hskip.
      * rewrite decide_True by (split; auto). simpl.
        rewrite decide_False; [done|].
        intros [_ [?|Heq]]; [congruence|]. by rewrite Hp in Heq.
  - assert (¬ scan_stop q name obj) as Hns by (intros [? _]; done).
    rewrite decide_False by done. by apply Hskip.
Qed.

Lemma found_at_first_match (P : Object → Prop) `{!∀ o, Decision (P o)} es :
  first_match P es (found_at 0 (list_find P es)).
Proof.
  destruct (list_find P es) as [[k o]|] eqn:Hf; simpl.
  - apply list_find_Some in Hf as (Hk & HP & Hleast).
    right. split; [lia|]. exists o.
    replace (Z.to_nat (0 + Z.of_nat k)) with k by lia. eauto.
  - apply list_find_None in Hf. left. split; [done|].
    intros o Ho. by eapply Forall_forall in Hf.
Qed.

(** [first_match] determines the answer. *)
Lemma first_match_unique (P : Object → Prop) es i j :
  first_match P es i → first_match P es j → i = j.
Proof.
  intros [[-> Hi]|(Hi & oi & Hli & HPi & Hmi)]
         [[-> Hj]|(Hj & oj & Hlj & HPj & Hmj)]; [done| | |].
  - destruct (Hi oj); [by eapply list_elem_of_lookup_2|done].
  - destruct (Hj oi); [by eapply list_elem_of_lookup_2|done].
  - destruct (Nat.lt_trichotomy (Z.to_nat i) (Z.to_nat j)) as [?|[?|?]].
    + by destruct (Hmj _ _ Hli).
    + lia.
    + by destruct (Hmi _ _ Hlj).
Qed.

(** ** [Index], [At] and [Lookup] on an allocated scope *)

Lemma Index_unqualified_find st r sc name :
  scopes st !! r = Some sc →
  Index st (Some r) None name
    = Ok (found_at 0 (list_find (name_match name) (entries sc))).
Proof. intros Hr. unfold Index, deref. rewrite Hr. simpl. by rewrite index_name_find. Qed.

Lemma Index_qualified_find st r sc q name :
  scopes st !! r = Some sc →
  Index st (Some r) (Some q) name =
    match list_find (scan_stop q name) (entries sc) with
    | None => Ok (-1)
    | Some (k, obj) =>
        if decide (qualified_match q name obj) then Ok (0 + Z.of_nat k)
        else Panic
    end.
Proof. intros Hr. unfold Index, deref. rewrite Hr. simpl. apply index_pkg_find. Qed.

Lemma At_lookup st r sc (k : nat) obj :
  scopes st !! r = Some sc →
  entries sc !! k = Some obj →
  At st (Some r) (0 + Z.of_nat k) = Ok obj.
Proof.
  intros Hr Hk. unfold At, deref. rewrite Hr. simpl.
  rewrite bool_decide_eq_true_2 by lia.
  replace (Z.to_nat (0 + Z.of_nat k)) with k by lia. by rewrite Hk.
Qed.

Lemma Lookup_unqualified_find st r sc name :
  scopes st !! r = Some sc →
  Lookup st (Some r) None name
    = Ok (snd <$> list_find (name_match name) (entries sc)).
Proof.
  intros Hr. unfold Lookup. rewrite (Index_unqualified_find _ _ _ _ Hr).
  destruct (list_find _ _) as [[k o]|] eqn:Hf; simpl; [|done].
  apply list_find_Some in Hf as (Hk & _).
  rewrite bool_decide_eq_true_2 by lia.
  by rewrite (At_lookup _ _ _ _ _ Hr Hk).
Qed.

Lemma Lookup_qualified_find st r sc q name :
  scopes st !! r = Some sc →
  Lookup st (Some r) (Some q) name =
    match list_find (scan_stop q name) (entries sc) with
    | None => Ok None
    | Some (k, obj) =>
        if decide (qualified_match q name obj) then Ok (Some obj) else Panic
    end.
Proof.
  intros Hr. unfold Lookup. rewrite (Index_qualified_find _ _ _ _ _ Hr).
  destruct (list_find _ _) as [[k o]|] eqn:Hf; simpl; [|done].
  apply list_find_Some in Hf as (Hk & _).
  destruct (decide _); simpl; [|done].
  rewrite bool_decide_eq_true_2 by lia.
  by rewrite (At_lookup _ _ _ _ _ Hr Hk).
Qed.

(** ** Unqualified queries *)

(** C7. With an absent qualifier, [Index] matches on the name alone: it
    answers the least position, in insertion order, of an entry whose name
    is the query name, and [-1] when no entry has that name. *)
Theorem Index_unqualified_first_match st r sc name :
  scopes st !! r = Some sc →
  ∃ i, Index st (Some r) None name = Ok i
       ∧ first_match (name_match name) (entries sc) i.
Proof.
  intros Hr. eexists. split; [by apply Index_unqualified_find|].
  apply found_at_first_match.
Qed.

(** One iteration of the loop of [LookupParent]. *)
Lemma LookupParent_S fuel st r name :
  LookupParent (S fuel) st (Some r) name =
    match Index st (Some r) None name with
    | Panic => Some Panic
    | Ok i =>
        if bool_decide (0 ≤ i)
        then Some (do obj <- At st (Some r) i; Ok (Some obj))
        else match Parent st (Some r) with
             | Panic => Some Panic
             | Ok p => LookupParent fuel st p name
             end
    end.
Proof. reflexivity. Qed.

(** ** The nil scope *)

Lemma nil_scope_reads st pkg name fuel :
  NumEntries st None = Ok 0
  ∧ IsEmpty st None = Ok true
  ∧ Index st None pkg name = Ok (-1)
  ∧ Lookup st None pkg name = Ok None
  ∧ LookupParent fuel st None name = Some (Ok None).
Proof. by destruct fuel. Qed.

Lemma empty_scope_reads st r sc pkg name fuel :
  scopes st !! r = Some sc →
  entries sc = [] →
  NumEntries st (Some r) = Ok 0
  ∧ IsEmpty st (Some r) = Ok true
  ∧ Index st (Some r) pkg name = Ok (-1)
  ∧ Lookup st (Some r) pkg name = Ok None
  ∧ LookupParent (S fuel) st (Some r) name
      = LookupParent fuel st (parent sc) name.
Proof.
  intros Hr Hes.
  assert (Index st (Some r) pkg name = Ok (-1)) as Hi.
  { unfold Index, deref. rewrite Hr. simpl. rewrite Hes. by destruct pkg. }
  assert (Index st (Some r) None name = Ok (-1)) as Hi0.
  { unfold Index, deref. rewrite Hr. simpl. by rewrite Hes. }
  split_and!.
  - unfold NumEntries, deref. rewrite Hr. simpl. by rewrite Hes.
  - unfold IsEmpty, deref. rewrite Hr. simpl. by rewrite Hes.
  - done.
  - unfold Lookup. by rewrite Hi.
  - rewrite LookupParent_S, Hi0. simpl.
    unfold Parent, deref. by rewrite Hr.
Qed.

(** C6 (as amended). On the nil scope [NumEntries] is 0, [IsEmpty] is true,
    [Index] and [Lookup] answer not-found for every qualifier and name, and
    [LookupParent] answers not-found at once, whatever the fuel.  A scope
    with zero entries gives the same answers for [NumEntries], [IsEmpty],
    [Index] and [Lookup]; its [LookupParent] goes on with its parent, hence
    agrees with the nil scope when it has no parent. *)
Theorem nil_scope_like_empty_scope st pkg name fuel :
  (NumEntries st None = Ok 0
   ∧ IsEmpty st None = Ok true
   ∧ Index st None pkg name = Ok (-1)
   ∧ Lookup st None pkg name = Ok None
   ∧ LookupParent fuel st None name = Some (Ok None))
  ∧ ∀ r sc, scopes st !! r = Some sc → entries sc = [] →
      NumEntries st (Some r) = NumEntries st None
      ∧ IsEmpty st (Some r) = IsEmpty st None
      ∧ Index st (Some r) pkg name = Index st None pkg name
      ∧ Lookup st (Some r) pkg name = Lookup st None pkg name
      ∧ LookupParent (S fuel) st (Some r) name
          = LookupParent fuel st (parent sc) name
      ∧ (parent sc = None →
         LookupParent (S fuel) st (Some r) name
           = LookupParent fuel st None name).
Proof.
  split; [apply nil_scope_reads|].
  intros r sc Hr Hes.
  destruct (empty_scope_reads st r sc pkg name fuel Hr Hes)
    as (Hn & He & Hi & Hl & Hp).
  destruct (nil_scope_reads st pkg name fuel) as (Hn' & He' & Hi' & Hl' & _).
  rewrite Hn, He, Hi, Hl, Hn', He', Hi', Hl', Hp.
  split_and!; try done. by intros ->.
Qed.

(** C9. [Insert] on the nil scope faults for every object: the conflict
    check answers no conflict, then [s.entries] dereferences nil.  The read
    operations [NumEntries], [IsEmpty], [Index], [Lookup], [LookupParent]
    and [String] return on the nil scope. *)
Theorem Insert_nil_scope_faults `{Fmt} st (arg : option Object) pkg name fuel :
  Insert st None arg = Panic
  ∧ (∀ o, Lookup st None (Pkg o) (Name o) = Ok None)
  ∧ NumEntries st None = Ok 0
  ∧ IsEmpty st None = Ok true
  ∧ Index st None pkg name = Ok (-1)
  ∧ Lookup st None pkg name = Ok None
  ∧ LookupParent fuel st None name = Some (Ok None)
  ∧ Scope_String st None = Ok "scope {}".
Proof.
  split_and!; try done.
  - by destruct arg.
  - by destruct fuel.
Qed.

(** ** Qualified queries *)

Lemma qualified_match_scan_stop q name o :
  qualified_match q name o → scan_stop q name o.
Proof. intros [? [?|?]]; split; auto. Qed.

Lemma scan_stop_qualified_match q name o :
  scan_stop q name o →
  IsExported name = true ∨ Pkg o ≠ None →
  qualified_match q name o.
Proof. intros [? [?|[?|?]]] [?|?]; split; auto; done. Qed.

(** The qualified identity rule, where the scan cannot fault.  In a scope
    where every entry spelled like the query has an originating package, or
    for an exported query name, [Index] with a non-nil qualifier answers the
    least position of an entry whose name equals the query name and such
    that the name is exported or the entry's package has the qualifier's
    path, and [-1] when there is no such entry; [Lookup] answers the entry
    at that position, or nil. *)
Theorem Index_qualified_rule st r sc q name :
  scopes st !! r = Some sc →
  (IsExported name = true
   ∨ ∀ o, o ∈ entries sc → Name o = name → Pkg o ≠ None) →
  ∃ i, Index st (Some r) (Some q) name = Ok i
       ∧ first_match (qualified_match q name) (entries sc) i
       ∧ Lookup st (Some r) (Some q) name
           = Ok (if bool_decide (0 ≤ i) then entries sc !! Z.to_nat i
                 else None).
Proof.
  intros Hr Hsafe.
  rewrite (Index_qualified_find _ _ _ _ _ Hr), (Lookup_qualified_find _ _ _ _ _ Hr).
  destruct (list_find _ _) as [[k o]|] eqn:Hf.
  - apply list_find_Some in Hf as (Hk & Hstop & Hleast).
    assert (qualified_match q name o) as Hm.
    { apply scan_stop_qualified_match; [done|].
      destruct Hsafe as [?|Hsafe]; [by left|right].
      apply Hsafe; [by eapply list_elem_of_lookup_2|apply Hstop]. }
    rewrite !decide_True by done.
    exists (0 + Z.of_nat k). split; [done|].
    replace (Z.to_nat (0 + Z.of_nat k)) with k by lia.
    rewrite bool_decide_eq_true_2 by lia. split; [|by rewrite Hk].
    right. split; [lia|]. exists o.
    replace (Z.to_nat (0 + Z.of_nat k)) with k by lia.
    split_and!; [done..|].
    intros j o' Hj Hlt Hm'. eapply Hleast; [done..|].
    by apply qualified_match_scan_stop.
  - apply list_find_None in Hf.
    exists (-1). split; [done|]. split; [|done].
    left. split; [done|]. intros o Ho Hm.
    eapply Forall_forall in Hf; [|done].
    by apply Hf, qualified_match_scan_stop.
Qed.

(** X16. The visibility law for same-spelled objects: an unexported name
    queried from a package that none of its bearers comes from is not
    found. *)
Corollary Lookup_unrelated_package st r sc q name :
  scopes st !! r = Some sc →
  IsExported name = false →
  (∀ o, o ∈ entries sc → Name o = name →
        ∃ p, Pkg o = Some p ∧ path p ≠ path q) →
  Lookup st (Some r) (Some q) name = Ok None.
Proof.
  intros Hr Hex Hall.
  destruct (Index_qualified_rule st r sc q name Hr) as (i & _ & Hfm & ->).
  { right. intros o Ho Hn. destruct (Hall o Ho Hn) as (p & -> & _). done. }
  destruct Hfm as [[-> _]|(Hi & o & Ho & [Hn [?|Hq]] & _)]; [done|congruence|].
  destruct (Hall o) as (p & Hp & Hne); [by eapply list_elem_of_lookup_2|done|].
  rewrite Hp in Hq. simpl in Hq. congruence.
Qed.

(** X17. An exported name is found whatever the qualifier: the qualified
    query answers what the unqualified one does. *)
Corollary Lookup_exported_any_qualifier st r sc q name :
  scopes st !! r = Some sc →
  IsExported name = true →
  Index st (Some r) (Some q) name = Index st (Some r) None name
  ∧ Lookup st (Some r) (Some q) name = Lookup st (Some r) None name.
Proof.
  intros Hr Hex.
  destruct (Index_qualified_rule st r sc q name Hr) as (i & Hi & Hfm & Hl);
    [by left|].
  pose proof (Index_unqualified_find st r sc name Hr) as Hj.
  pose proof (found_at_first_match (name_match name) (entries sc)) as Hfm'.
  set (j := found_at 0 (list_find (name_match name) (entries sc))) in *.
  assert (i = j) as ->.
  { eapply first_match_unique; [|exact Hfm'].
    destruct Hfm as [[-> Hno]|(Hpos & o & Ho & [Hn _] & Hleast)].
    - left. split; [done|]. intros o Ho Hn. apply (Hno o Ho). split; auto.
    - right. split; [done|]. exists o. split_and!; [done..|].
      intros j' o' Hj' Hlt Hn'. apply (Hleast j' o' Hj' Hlt). split; auto. }
  split; [congruence|]. unfold Lookup. by rewrite Hi, Hj.
Qed.

(** X18. A qualified query for an unexported name only ever answers an
    object of the qualifier's package. *)
Corollary Lookup_same_origin_only st r sc q name o :
  scopes st !! r = Some sc →
  IsExported name = false →
  Lookup st (Some r) (Some q) name = Ok (Some o) →
  o ∈ entries sc ∧ Name o = name ∧ path <$> Pkg o = Some (path q).
Proof.
  intros Hr Hex. rewrite (Lookup_qualified_find _ _ _ _ _ Hr).
  destruct (list_find _ _) as [[k o']|] eqn:Hf; [|done].
  destruct (decide _) as [[Hn [?|Hq]]|]; [congruence| |done].
  intros [= ->]. apply list_find_Some in Hf as (Hk & _).
  split_and!; [by eapply list_elem_of_lookup_2|done..].
Qed.

(** ** [Insert] *)

(** What [Lookup] answers is always an entry matching the query. *)
Lemma Lookup_Some_match st r sc pkg name alt :
  scopes st !! r = Some sc →
  Lookup st (Some r) pkg name = Ok (Some alt) →
  ∃ k : nat, entries sc !! k = Some alt ∧ ident_match pkg name alt
    ∧ Index st (Some r) pkg name = Ok (0 + Z.of_nat k).
Proof.
  intros Hr. destruct pkg as [q|].
  - rewrite (Lookup_qualified_find _ _ _ _ _ Hr), (Index_qualified_find _ _ _ _ _ Hr).
    destruct (list_find _ _) as [[k o]|] eqn:Hf; [|done].
    destruct (decide _); [|done]. intros [= ->].
    apply list_find_Some in Hf as (Hk & _). eauto.
  - rewrite (Lookup_unqualified_find _ _ _ _ Hr), (Index_unqualified_find _ _ _ _ Hr).
    destruct (list_find _ _) as [[k o]|] eqn:Hf; [|done].
    intros [= ->]. apply list_find_Some in Hf as (Hk & Hm & _). eauto.
Qed.

(** When [Lookup] answers nil, no entry matches the query. *)
Lemma Lookup_None_no_match st r sc pkg name :
  scopes st !! r = Some sc →
  Lookup st (Some r) pkg name = Ok None →
  ∀ o, o ∈ entries sc → ¬ ident_match pkg name o.
Proof.
  intros Hr. destruct pkg as [q|].
  - rewrite (Lookup_qualified_find _ _ _ _ _ Hr).
    destruct (list_find _ _) as [[k o]|] eqn:Hf; [by destruct (decide _)|].
    intros _ o Ho Hm. apply list_find_None in Hf.
    eapply Forall_forall in Hf; [|done]. by apply Hf, qualified_match_scan_stop.
  - rewrite (Lookup_unqualified_find _ _ _ _ Hr).
    destruct (list_find _ _) as [[k o]|] eqn:Hf; [done|].
    intros _ o Ho Hm. apply list_find_None in Hf.
    eapply Forall_forall in Hf; [|done]. done.
Qed.

Lemma setParent_appended st r sc o :
  setParent o r
    (mkState (<[r := mkScope (parent sc) (entries sc ++ [o])]> (scopes st))
             (parents st))
  = appended st r sc o.
Proof.
  unfold setParent, appended. simpl. by destruct (parents st !! oid o).
Qed.

Lemma Insert_inv st s (arg : option Object) st' alt :
  Insert st s arg = Ok (st', alt) →
  ∃ o, arg = Some o ∧
    ((∃ a, alt = Some a ∧ st' = st
           ∧ Lookup st s (Pkg o) (Name o) = Ok (Some a))
     ∨ (alt = None ∧ ∃ r sc, s = Some r ∧ scopes st !! r = Some sc
           ∧ Lookup st s (Pkg o) (Name o) = Ok None
           ∧ st' = appended st r sc o)).
Proof.
  unfold Insert. destruct arg as [o|]; [|done]. intros Hi. exists o.
  split; [done|].
  destruct (Lookup st s (Pkg o) (Name o)) as [[a|]|]; simpl in Hi; [| |done].
  - left. exists a. by simplify_eq.
  - right. destruct s as [r|]; [|done]. unfold deref in Hi.
    destruct (scopes st !! r) as [sc|] eqn:Hr; cbn [bind] in Hi; [|done].
    rewrite setParent_appended in Hi.
    simplify_eq. split; [done|]. by exists r, sc.
Qed.

Lemma Insert_append st r sc o :
  scopes st !! r = Some sc →
  Lookup st (Some r) (Pkg o) (Name o) = Ok None →
  Insert st (Some r) (Some o) = Ok (appended st r sc o, None).
Proof.
  intros Hr Hl. unfold Insert. rewrite Hl. cbn [bind]. unfold deref.
  rewrite Hr. cbn [bind]. by rewrite setParent_appended.
Qed.

(** What [Insert] does, by the answer of its conflict check.  When [Lookup]
    with the object's package and name answers an entry, [Insert] changes
    nothing and returns that entry, which is an entry the scope already had
    and matches the object under the identity rule; when [Lookup] answers
    nil it appends the object to the entries of the scope and returns nil;
    when [Lookup] faults, so does [Insert]. *)
Lemma Insert_conflict_atomic st r sc o :
  scopes st !! r = Some sc →
  match Lookup st (Some r) (Pkg o) (Name o) with
  | Ok (Some alt) =>
      Insert st (Some r) (Some o) = Ok (st, Some alt)
      ∧ alt ∈ entries sc
      ∧ ident_match (Pkg o) (Name o) alt
      ∧ (o ∉ entries sc → alt ≠ o)
  | Ok None =>
      ∃ st', Insert st (Some r) (Some o) = Ok (st', None)
        ∧ scopes st' !! r = Some (mkScope (parent sc) (entries sc ++ [o]))
        ∧ NumEntries st' (Some r) = Ok (Z.of_nat (length (entries sc)) + 1)
        ∧ At st' (Some r) (Z.of_nat (length (entries sc))) = Ok o
        ∧ ∀ r', r' ≠ r → scopes st' !! r' = scopes st !! r'
  | Panic => Insert st (Some r) (Some o) = Panic
  end.
Proof.
  intros Hr.
  destruct (Lookup st (Some r) (Pkg o) (Name o)) as [[alt|]|] eqn:Hl.
  - destruct (Lookup_Some_match _ _ _ _ _ _ Hr Hl) as (k & Hk & Hm & _).
    assert (alt ∈ entries sc) by (by eapply list_elem_of_lookup_2).
    split_and!; [|done..|congruence].
    unfold Insert. by rewrite Hl.
  - exists (appended st r sc o).
    assert (scopes (appended st r sc o) !! r
            = Some (mkScope (parent sc) (entries sc ++ [o]))) as Hr'.
    { simpl. by rewrite lookup_insert_eq. }
    split_and!.
    + by apply Insert_append.
    + done.
    + unfold NumEntries, deref. rewrite Hr'. simpl.
      rewrite length_app. simpl. f_equal. lia.
    + unfold At, deref. rewrite Hr'. simpl.
      rewrite bool_decide_eq_true_2 by lia. rewrite Nat2Z.id.
      by rewrite lookup_app_r, Nat.sub_diag.
    + intros r' Hne. simpl. by rewrite lookup_insert_ne.
  - unfold Insert. by rewrite Hl.
Qed.

(** Where the conflict check cannot fault, [Insert] follows the identity
    rule itself: it returns the first entry matching the object's package
    and name and leaves the store alone, or, when no entry matches, appends
    the object and returns nil. *)
Lemma Insert_by_identity_rule st r sc o :
  scopes st !! r = Some sc →
  (Pkg o = None
   ∨ IsExported (Name o) = true
   ∨ ∀ e, e ∈ entries sc → Name e = Name o → Pkg e ≠ None) →
  ∃ i, first_match (ident_match (Pkg o) (Name o)) (entries sc) i
    ∧ Insert st (Some r) (Some o)
        = if bool_decide (0 ≤ i)
          then match entries sc !! Z.to_nat i with
               | Some alt => Ok (st, Some alt)
               | None => Panic
               end
          else Ok (appended st r sc o, None).
Proof.
  intros Hr Hsafe.
  assert (∃ i, first_match (ident_match (Pkg o) (Name o)) (entries sc) i
            ∧ Lookup st (Some r) (Pkg o) (Name o)
                = Ok (if bool_decide (0 ≤ i) then entries sc !! Z.to_nat i
                      else None)) as (i & Hfm & Hl).
  { destruct (Pkg o) as [q|] eqn:Hq.
    - destruct (Index_qualified_rule st r sc q (Name o) Hr)
        as (i & _ & Hfm & Hl); [|by exists i].
      destruct Hsafe as [?|[?|?]]; [done|by left|by right].
    - exists (found_at 0 (list_find (name_match (Name o)) (entries sc))).
      split; [apply found_at_first_match|].
      rewrite (Lookup_unqualified_find _ _ _ _ Hr).
      destruct (list_find _ _) as [[k a]|] eqn:Hf; simpl; [|done].
      apply list_find_Some in Hf as (Hk & _).
      rewrite bool_decide_eq_true_2 by lia.
      replace (Z.to_nat (0 + Z.of_nat k)) with k by lia. by rewrite Hk. }
  exists i. split; [done|].
  destruct Hfm as [[-> _]|(Hi & alt & Halt & _)].
  - rewrite bool_decide_eq_false_2 in Hl |- * by lia.
    by apply Insert_append.
  - rewrite bool_decide_eq_true_2 in Hl |- * by lia.
    rewrite Halt in Hl |- *. unfold Insert. by rewrite Hl.
Qed.

(** ** Ownership *)



(** In a store built by [NewScope] and [Insert] every declared object has an
    owner: an object without owner is one no scope declares, and a returning
    [Insert] of it is its first. *)
Lemma reachable_entries_owned st r sc e :
  reachable st →
  scopes st !! r = Some sc →
  e ∈ entries sc →
  is_Some (ObjParent st e).
Proof.
  intros Hreach. revert r sc e.
  apply (rtc_ind_r (R := step)
           (λ st, ∀ r sc e, scopes st !! r = Some sc → e ∈ entries sc →
                            is_Some (ObjParent st e)) empty_state);
    [| |exact Hreach].
  - intros r sc e Hr. simpl in Hr. by rewrite lookup_empty in Hr.
  - intros y z _ Hstep IH r sc e Hr He.
    destruct Hstep as [st0 p _|st0 s arg st1 alt Hins].
    + simpl in Hr. destruct (decide (fresh (dom (scopes st0)) = r)) as [<-|Hne].
      * rewrite lookup_insert_eq in Hr. simplify_eq.
        by apply elem_of_nil in He.
      * rewrite lookup_insert_ne in Hr by done. by apply (IH r sc e).
    + apply Insert_inv in Hins
        as (o & -> & [(a & _ & -> & _)|(_ & r0 & sc0 & -> & Hr0 & _ & ->)]);
        [by apply (IH r sc e)|].
      assert (is_Some (ObjParent st0 e) ∨ e = o) as [[r1 Hown]|Heo].
      { simpl in Hr. destruct (decide (r0 = r)) as [<-|Hne].
        - rewrite lookup_insert_eq in Hr. simplify_eq. simpl in He.
          apply elem_of_app in He as [He|He%list_elem_of_singleton];
            [left; by apply (IH r0 sc0 e)|by right].
        - rewrite lookup_insert_ne in Hr by done. left. by apply (IH r sc e). }
      * exists r1. unfold ObjParent in *. simpl.
        destruct (parents st0 !! oid o) as [r2|] eqn:Ho; [done|].
        rewrite lookup_insert_ne; [done|]. intros Heq. congruence.
      * subst e. unfold ObjParent. simpl.
        destruct (parents st0 !! oid o) as [r2|] eqn:Ho; [by eexists|].
        rewrite lookup_insert_eq. by eexists.
Qed.


(** ** Insertion order *)

Lemma Lookup_distinct st r sc o :
  scopes st !! r = Some sc →
  (∀ a, a ∈ entries sc →
        ¬ ident_match (Pkg o) (Name o) a ∧ ¬ ident_match (Pkg a) (Name a) o) →
  Lookup st (Some r) (Pkg o) (Name o) = Ok None.
Proof.
  intros Hr Hd. destruct (Pkg o) as [q|] eqn:Hq.
  - rewrite (Lookup_qualified_find _ _ _ _ _ Hr).
    destruct (list_find _ _) as [[k a]|] eqn:Hf; [|done].
    apply list_find_Some in Hf as (Hk & [Hn Hstop] & _).
    apply list_elem_of_lookup_2 in Hk. destruct (Hd a Hk) as [Hn1 Hn2].
    destruct Hstop as [Hex|[Hnil|Hp]].
    + destruct Hn1. by split; [|left].
    + destruct Hn2. rewrite Hnil. done.
    + destruct Hn1. by split; [|right].
  - rewrite (Lookup_unqualified_find _ _ _ _ Hr).
    destruct (list_find _ _) as [[k a]|] eqn:Hf; [|done].
    apply list_find_Some in Hf as (Hk & Hn & _).
    apply list_elem_of_lookup_2 in Hk. by destruct (Hd a Hk) as [[] _].
Qed.

Lemma insert_all_distinct r objs :
  ∀ st sc,
    scopes st !! r = Some sc →
    pairwise_distinct (entries sc ++ objs) →
    ∃ st', insert_all st (Some r) objs
             = Ok (st', replicate (length objs) None)
      ∧ scopes st' !! r = Some (mkScope (parent sc) (entries sc ++ objs))
      ∧ ∀ r', r' ≠ r → scopes st' !! r' = scopes st !! r'.
Proof.
  induction objs as [|o objs IH]; intros st sc Hr Hd.
  - exists st. rewrite app_nil_r. by destruct sc.
  - assert (Lookup st (Some r) (Pkg o) (Name o) = Ok None) as Hl.
    { apply (Lookup_distinct _ _ _ _ Hr). intros a Ha.
      apply list_elem_of_lookup_1 in Ha as [i Hi].
      assert (i < length (entries sc))%nat by (by eapply lookup_lt_Some).
      assert ((entries sc ++ o :: objs) !! i = Some a)
        by (by apply lookup_app_l_Some).
      assert ((entries sc ++ o :: objs) !! length (entries sc) = Some o)
        by (by rewrite lookup_app_r, Nat.sub_diag).
      split.
      - eapply (Hd i (length (entries sc))); [lia|done..].
      - eapply (Hd (length (entries sc)) i); [lia|done..]. }
    destruct (IH (appended st r sc o)
                 (mkScope (parent sc) (entries sc ++ [o]))) as (st' & Ha & Hr' & Hoth).
    { simpl. by rewrite lookup_insert_eq. }
    { simpl. by rewrite <- app_assoc. }
    exists st'. split_and!.
    + cbn [insert_all]. rewrite (Insert_append _ _ _ _ Hr Hl).
      cbn [bind fst snd]. by rewrite Ha.
    + rewrite Hr'. simpl. by rewrite <- app_assoc.
    + intros r' Hne. rewrite Hoth by done. simpl. by rewrite lookup_insert_ne.
Qed.

(** C5. Inserting [k] objects with pairwise-distinct identities, one after
    the other, into a scope without entries: every [Insert] returns nil,
    afterwards [NumEntries] is [k] and [At i] is the [i]-th object inserted,
    for every [0 <= i < k]. *)
Theorem insert_all_order st r sc objs :
  scopes st !! r = Some sc →
  entries sc = [] →
  pairwise_distinct objs →
  ∃ st', insert_all st (Some r) objs = Ok (st', replicate (length objs) None)
    ∧ NumEntries st' (Some r) = Ok (Z.of_nat (length objs))
    ∧ ∀ (i : nat) o, objs !! i = Some o → At st' (Some r) (Z.of_nat i) = Ok o.
Proof.
  intros Hr Hes Hd.
  destruct (insert_all_distinct r objs st sc Hr) as (st' & Ha & Hr' & _).
  { by rewrite Hes. }
  rewrite Hes in Hr'. simpl in Hr'.
  exists st'. split_and!; [done| |].
  - unfold NumEntries, deref. by rewrite Hr'.
  - intros i o Hi. by apply (At_lookup _ _ _ _ _ Hr' Hi).
Qed.

(** ** Reachable stores *)

Lemma step_nopkg_first st st' :
  step st st' → nopkg_first st → nopkg_first st'.
Proof.
  intros Hstep Hinv. destruct Hstep as [st p _|st s arg st' alt Hins].
  - intros r sc i j a b Hr Hi Hj Hlt Hn. simpl in Hr.
    destruct (decide (fresh (dom (scopes st)) = r)) as [<-|Hne].
    + rewrite lookup_insert_eq in Hr. by simplify_eq.
    + rewrite lookup_insert_ne in Hr by done.
      by apply (Hinv r sc i j a b).
  - apply Insert_inv in Hins
      as (o & -> & [(a & _ & -> & _)|(_ & r0 & sc0 & -> & Hr0 & Hl & ->)]);
      [done|].
    intros r sc i j a b Hr Hi Hj Hlt Hn. simpl in Hr.
    destruct (decide (r0 = r)) as [<-|Hne].
    + rewrite lookup_insert_eq in Hr. simplify_eq. simpl in *.
      destruct (decide (j < length (entries sc0))%nat) as [Hjl|Hjl].
      * rewrite lookup_app_l in Hi, Hj by lia.
        by apply (Hinv r0 sc0 i j a b).
      * rewrite lookup_app_r in Hj by lia.
        destruct (j - length (entries sc0))%nat as [|n] eqn:Hj0; [|done].
        simpl in Hj. simplify_eq.
        destruct (decide (i < length (entries sc0))%nat) as [Hil|Hil].
        -- rewrite lookup_app_l in Hi by lia.
           intros Hnil. rewrite Hnil in Hl.
           apply (Lookup_None_no_match _ _ _ _ _ Hr0 Hl a);
             [by eapply list_elem_of_lookup_2|done].
        -- lia.
    + rewrite lookup_insert_ne in Hr by done.
      by apply (Hinv r sc i j a b).
Qed.

Lemma reachable_nopkg_first st : reachable st → nopkg_first st.
Proof.
  intros Hreach.
  apply (rtc_ind_r (R := step) nopkg_first empty_state); [| |exact Hreach].
  - intros r sc i j a b Hr. simpl in Hr. by rewrite lookup_empty in Hr.
  - intros y z _ Hstep IH. by apply (step_nopkg_first y z).
Qed.

(** C10. In a scope holding an entry whose name is the query name, is not
    exported, and whose object has no package, [Index] with a non-nil
    qualifier faults on [obj.Pkg().path]: it answers neither a position nor
    not-found.  [Lookup] faults with it, and so does [Insert] of an object
    of that name that has a package. *)
Theorem Index_no_package_entry_faults st r sc e q name :
  reachable st →
  scopes st !! r = Some sc →
  e ∈ entries sc →
  Name e = name →
  IsExported name = false →
  Pkg e = None →
  Index st (Some r) (Some q) name = Panic
  ∧ Lookup st (Some r) (Some q) name = Panic
  ∧ ∀ o, Name o = name → Pkg o = Some q →
         Insert st (Some r) (Some o) = Panic.
Proof.
  intros Hreach%reachable_nopkg_first Hr [j Hj]%list_elem_of_lookup_1 Hn Hex Hnil.
  assert (list_find (scan_stop q name) (entries sc) = Some (j, e)) as Hf.
  { apply list_find_Some. split_and!; [done|split; auto|].
    intros i a Hi Hlt [Hna _].
    apply (Hreach r sc i j a e Hr Hi Hj Hlt); congruence. }
  assert (¬ qualified_match q name e) as Hnm.
  { intros [_ [?|Hq]]; [congruence|]. by rewrite Hnil in Hq. }
  assert (Lookup st (Some r) (Some q) name = Panic) as Hl.
  { rewrite (Lookup_qualified_find _ _ _ _ _ Hr), Hf. by rewrite decide_False. }
  split_and!; [|done|].
  - rewrite (Index_qualified_find _ _ _ _ _ Hr), Hf. by rewrite decide_False.
  - intros o <- Hq. unfold Insert. by rewrite Hq, Hl.
Qed.

(** ** Parent chains and [LookupParent] *)

Lemma LookupParent_visits_result fuel st s name :
  LookupParent fuel st s name = snd <$> LookupParent_visits fuel st s name.
Proof.
  revert s. induction fuel as [|fuel IH]; intros [r|]; try done.
  cbn [LookupParent LookupParent_visits].
  destruct (Index st (Some r) None name) as [i|]; [|done].
  case_bool_decide; [done|].
  destruct (Parent st (Some r)) as [p|]; [|done].
  rewrite IH. by destruct (LookupParent_visits fuel st p name) as [[vs res]|].
Qed.

Lemma Index_absent_name st r sc name :
  scopes st !! r = Some sc →
  (∀ o, o ∈ entries sc → Name o ≠ name) →
  Index st (Some r) None name = Ok (-1).
Proof.
  intros Hr Hno. rewrite (Index_unqualified_find _ _ _ _ Hr).
  destruct (list_find _ _) as [[k o]|] eqn:Hf; [|done].
  apply list_find_Some in Hf as (Hk & Hn & _).
  by destruct (Hno o); [eapply list_elem_of_lookup_2|].
Qed.

(** The loop walks through scopes that do not declare the name, one unit of
    fuel and one visit each. *)
Lemma LookupParent_visits_skip st s pre e name fuel :
  segment st s pre e →
  (∀ r sc o, r ∈ pre → scopes st !! r = Some sc → o ∈ entries sc →
             Name o ≠ name) →
  LookupParent_visits (length pre + fuel) st s name
    = prod_map (app pre) id <$> LookupParent_visits fuel st e name.
Proof.
  induction 1 as [s|r sc l e Hr Hseg IH]; intros Hno.
  - simpl. by destruct (LookupParent_visits fuel st s name) as [[vs res]|].
  - cbn [length Nat.add LookupParent_visits].
    rewrite (Index_absent_name _ _ _ _ Hr)
      by (intros o; apply (Hno r sc o); [left|done]).
    rewrite bool_decide_eq_false_2 by lia.
    unfold Parent, deref. rewrite Hr. cbn [bind].
    rewrite IH by (intros r' sc' o' Hin; apply Hno; by right).
    by destruct (LookupParent_visits fuel st e name) as [[vs res]|].
Qed.

Lemma LookupParent_skip st s pre e name fuel :
  segment st s pre e →
  (∀ r sc o, r ∈ pre → scopes st !! r = Some sc → o ∈ entries sc →
             Name o ≠ name) →
  LookupParent (length pre + fuel) st s name = LookupParent fuel st e name.
Proof.
  intros Hseg Hno. rewrite !LookupParent_visits_result.
  rewrite (LookupParent_visits_skip _ _ _ _ _ _ Hseg Hno).
  by destruct (LookupParent_visits fuel st e name) as [[vs res]|].
Qed.

(** C2. [LookupParent] searches the scope it starts at and then its
    ancestors along the parent links, and returns the first entry of that
    name in the innermost scope that has one: when the scopes [pre] walked
    through from [r] up to, but without, [t] declare no entry named [name],
    and [o] is the first entry of that name in [t], the answer is [o].
    With [pre] empty this is the child's own declaration shadowing any
    outer one; with [pre] the child alone it is the parent's declaration
    seen from a child that has none. *)
Theorem LookupParent_innermost st r pre t sc (k : nat) o name fuel :
  segment st (Some r) pre (Some t) →
  (∀ r' sc' o', r' ∈ pre → scopes st !! r' = Some sc' → o' ∈ entries sc' →
                Name o' ≠ name) →
  scopes st !! t = Some sc →
  entries sc !! k = Some o →
  Name o = name →
  (∀ j o', entries sc !! j = Some o' → (j < k)%nat → Name o' ≠ name) →
  (length pre < fuel)%nat →
  LookupParent fuel st (Some r) name = Some (Ok (Some o)).
Proof.
  intros Hseg Hno Ht Hk Hn Hleast Hfuel.
  replace fuel with (length pre + S (fuel - length pre - 1))%nat by lia.
  rewrite (LookupParent_skip _ _ _ _ _ _ Hseg Hno).
  rewrite LookupParent_S, (Index_unqualified_find _ _ _ _ Ht).
  assert (list_find (name_match name) (entries sc) = Some (k, o)) as ->
    by (by apply list_find_Some).
  cbn [found_at]. rewrite bool_decide_eq_true_2 by lia.
  by rewrite (At_lookup _ _ _ _ _ Ht Hk).
Qed.

Lemma segment_functional st s l l' :
  segment st s l None → segment st s l' None → l = l'.
Proof.
  intros Hseg. revert l'. remember None as e eqn:He.
  induction Hseg as [s|r sc l e Hr Hseg IH]; intros l' Hseg'; subst.
  - by inversion Hseg'.
  - inversion Hseg' as [|r' sc' l'' e' Hr' Hseg'']; simplify_eq.
    f_equal. by apply IH.
Qed.

Lemma segment_suffix st s l e r :
  segment st s l e → r ∈ l →
  ∃ l1 l2, l = l1 ++ r :: l2 ∧ segment st (Some r) (r :: l2) e.
Proof.
  induction 1 as [s|r0 sc l e Hr Hseg IH]; intros Hin.
  - by apply elem_of_nil in Hin.
  - apply elem_of_cons in Hin as [->|Hin].
    + exists [], l. split; [done|]. by econstructor.
    + destruct (IH Hin) as (l1 & l2 & -> & Hsuf).
      by exists (r0 :: l1), l2.
Qed.

(** A chain that ends at a root passes through each of its scopes once. *)
Lemma segment_NoDup st s l : segment st s l None → NoDup l.
Proof.
  intros Hseg. remember None as e eqn:He.
  induction Hseg as [s|r sc l e Hr Hseg IH]; subst; constructor; [|by auto].
  intros Hin.
  destruct (segment_suffix _ _ _ _ _ Hseg Hin) as (l1 & l2 & Hl & Hsuf).
  assert (segment st (Some r) (r :: l) None) as Hwhole by (by econstructor).
  pose proof (segment_functional _ _ _ _ Hsuf Hwhole) as Heq.
  injection Heq as Heq. rewrite Hl in Heq. apply (f_equal length) in Heq.
  rewrite length_app in Heq. simpl in Heq. lia.
Qed.

(** C8. On a finite ancestor chain [l] none of whose scopes declares the
    name, [LookupParent] returns, with not-found, as soon as the fuel covers
    the depth of the chain; the scopes it visits are exactly those of the
    chain, in order and each once, so the number of visits is the depth. *)
Theorem LookupParent_exhausted_chain st r l name fuel :
  segment st (Some r) l None →
  (∀ r' sc o, r' ∈ l → scopes st !! r' = Some sc → o ∈ entries sc →
              Name o ≠ name) →
  (length l ≤ fuel)%nat →
  LookupParent fuel st (Some r) name = Some (Ok None)
  ∧ LookupParent_visits fuel st (Some r) name = Some (l, Ok None)
  ∧ NoDup l
  ∧ ∀ fuel', (fuel' < length l)%nat → LookupParent fuel' st (Some r) name = None.
Proof.
  intros Hseg Hno Hfuel.
  assert (LookupParent_visits fuel st (Some r) name = Some (l, Ok None)) as Hv.
  { replace fuel with (length l + (fuel - length l))%nat by lia.
    rewrite (LookupParent_visits_skip _ _ _ _ _ _ Hseg Hno).
    destruct (fuel - length l)%nat; simpl; by rewrite app_nil_r. }
  split_and!; [|done|by eapply segment_NoDup|].
  - by rewrite LookupParent_visits_result, Hv.
  - clear Hfuel Hv fuel. revert Hno. remember None as e eqn:He.
    remember (Some r) as s eqn:Hs. clear Hs.
    induction Hseg as [s|r0 sc l e Hr Hseg IH]; intros Hno fuel' Hlt;
      [simpl in Hlt; lia|].
    destruct fuel' as [|fuel']; [done|].
    rewrite LookupParent_S.
    rewrite (Index_absent_name _ _ _ _ Hr)
      by (intros o; apply (Hno r0 sc o); [left|done]).
    rewrite bool_decide_eq_false_2 by lia.
    unfold Parent, deref. rewrite Hr. cbn [bind].
    apply IH; [done| |simpl in Hlt; lia].
    intros r' sc' o' Hin. apply Hno. by right.
Qed.

(** Without any assumption on the name, the loop ends within the depth of
    the chain. *)
Lemma LookupParent_terminates st s l name fuel :
  segment st s l None →
  (length l ≤ fuel)%nat →
  is_Some (LookupParent fuel st s name).
Proof.
  intros Hseg. revert fuel. remember None as e eqn:He.
  induction Hseg as [s|r sc l e Hr Hseg IH]; intros fuel Hfuel; subst.
  - by destruct fuel.
  - destruct fuel as [|fuel]; [simpl in Hfuel; lia|].
    rewrite LookupParent_S.
    destruct (Index st (Some r) None name) as [i|]; [|done].
    case_bool_decide; [done|].
    unfold Parent, deref. rewrite Hr. cbn [bind].
    apply IH; [done|simpl in Hfuel; lia].
Qed.

(** ** Reachable stores have finite chains *)

Lemma segment_mono st st' s l e :
  (∀ r sc, scopes st !! r = Some sc →
           ∃ sc', scopes st' !! r = Some sc' ∧ parent sc' = parent sc) →
  segment st s l e → segment st' s l e.
Proof.
  intros Hext. induction 1 as [s|r sc l e Hr Hseg IH]; [constructor|].
  destruct (Hext r sc Hr) as (sc' & Hr' & Hp).
  econstructor; [done|]. by rewrite Hp.
Qed.

Lemma step_chains_finite st st' :
  step st st' → chains_finite st → chains_finite st'.
Proof.
  intros Hstep Hinv. destruct Hstep as [st p Hp|st s arg st' alt Hins].
  - set (r0 := fresh (dom (scopes st))).
    assert (scopes st !! r0 = None) as Hfresh
      by (apply not_elem_of_dom, is_fresh).
    assert (∀ s l e, segment st s l e → segment (NewScope st p).1 s l e) as Hmono.
    { intros s l e. apply segment_mono. intros r sc Hr. exists sc.
      split; [|done]. simpl. rewrite lookup_insert_ne; [done|].
      intros <-. fold r0 in Hr. congruence. }
    intros r Hr. simpl in Hr. destruct (decide (r0 = r)) as [<-|Hne].
    + assert (scopes (NewScope st p).1 !! r0 = Some (mkScope p [])) as Hr0
        by (simpl; by rewrite lookup_insert_eq).
      destruct p as [r1|].
      * destruct (Hinv r1) as [l Hl]; [by apply Hp|].
        exists (r0 :: l). econstructor; [exact Hr0|]. by apply Hmono.
      * exists [r0]. econstructor; [exact Hr0|]. constructor.
    + fold r0 in Hr. rewrite lookup_insert_ne in Hr by done.
      destruct (Hinv r Hr) as [l Hl]. exists l. by apply Hmono.
  - apply Insert_inv in Hins
      as (o & -> & [(a & _ & -> & _)|(_ & r0 & sc0 & -> & Hr0 & _ & ->)]);
      [done|].
    assert (∀ s l e, segment st s l e → segment (appended st r0 sc0 o) s l e)
      as Hmono.
    { intros s l e. apply segment_mono. intros r sc Hr. simpl.
      destruct (decide (r0 = r)) as [<-|Hne].
      - rewrite lookup_insert_eq. simplify_eq. by eexists.
      - rewrite lookup_insert_ne by done. by exists sc. }
    intros r Hr. simpl in Hr.
    destruct (Hinv r) as [l Hl]; [|exists l; by apply Hmono].
    destruct (decide (r0 = r)) as [<-|Hne]; [done|].
    by rewrite lookup_insert_ne in Hr.
Qed.

Lemma reachable_chains_finite st : reachable st → chains_finite st.
Proof.
  intros Hreach.
  apply (rtc_ind_r (R := step) chains_finite empty_state); [| |exact Hreach].
  - intros r [sc Hr]. simpl in Hr. by rewrite lookup_empty in Hr.
  - intros y z _ Hstep IH. by apply (step_chains_finite y z).
Qed.

(** In a reachable store [LookupParent] returns from every scope: the
    precondition of the chain theorems always holds there. *)
Corollary reachable_LookupParent_returns st r name :
  reachable st →
  is_Some (scopes st !! r) →
  ∃ fuel, is_Some (LookupParent fuel st (Some r) name).
Proof.
  intros Hreach Hr.
  destruct (reachable_chains_finite st Hreach r Hr) as [l Hl].
  exists (length l). by eapply LookupParent_terminates.
Qed.

End Properties.

(** * Further properties of the operations *)

Section Extensions.

Context `{ExportRule}.

Implicit Types (st : state) (r : positive) (sc : Scope) (obj o : Object).
Implicit Types (es : list Object) (name : string) (q : Package).

(** ** Allocation *)

(** X1. [NewScope] returns an address that held no scope; the new scope has
    the given parent and no entries; every other scope, and every object's
    back-reference, is as before. *)
Theorem NewScope_fresh st p :
  scopes st !! (NewScope st p).2 = None
  ∧ scopes (NewScope st p).1 !! (NewScope st p).2 = Some (mkScope p [])
  ∧ (∀ r, r ≠ (NewScope st p).2 →
          scopes (NewScope st p).1 !! r = scopes st !! r)
  ∧ parents (NewScope st p).1 = parents st
  ∧ Parent (NewScope st p).1 (Some (NewScope st p).2) = Ok p
  ∧ NumEntries (NewScope st p).1 (Some (NewScope st p).2) = Ok 0
  ∧ IsEmpty (NewScope st p).1 (Some (NewScope st p).2) = Ok true.
Proof.
  simpl. set (r0 := fresh (dom (scopes st))).
  assert (scopes st !! r0 = None) as Hfresh
    by (apply not_elem_of_dom, is_fresh).
  split_and!; [done|by rewrite lookup_insert_eq| |done|..].
  - intros r Hne. by rewrite lookup_insert_ne.
  - unfold Parent, deref. simpl. by rewrite lookup_insert_eq.
  - unfold NumEntries, deref. simpl. by rewrite lookup_insert_eq.
  - unfold IsEmpty, deref. simpl. by rewrite lookup_insert_eq.
Qed.

(** ** Bounds *)

(** X2. [At i] answers an entry exactly for [0 <= i < NumEntries()], and
    then the entry at that position; outside this range it faults. *)
Theorem At_bounds st r sc i :
  scopes st !! r = Some sc →
  ∃ n, NumEntries st (Some r) = Ok n
    ∧ 0 ≤ n
    ∧ (∀ o, At st (Some r) i = Ok o
            ↔ 0 ≤ i < n ∧ entries sc !! Z.to_nat i = Some o)
    ∧ (At st (Some r) i = Panic ↔ i < 0 ∨ n ≤ i).
Proof.
  intros Hr. exists (Z.of_nat (length (entries sc))).
  unfold NumEntries, At, deref. rewrite Hr. simpl.
  split; [done|]. split; [lia|].
  case_bool_decide as Hi.
  - destruct (entries sc !! Z.to_nat i) as [e|] eqn:He.
    + apply lookup_lt_Some in He as Hlt. split.
      * intros o. split; [intros [= <-]; split; [lia|done]|].
        by intros [_ [= <-]].
      * split; [done|]. lia.
    + apply lookup_ge_None in He. split.
      * intros o. split; [done|]. by intros [_ ?].
      * split; [lia|done].
  - split.
    + intros o. split; [done|]. lia.
    + split; [lia|done].
Qed.

(** X3. [Index] answers [-1] or a position below [NumEntries()].  [Lookup]
    is [At] at that position: it answers nil for [-1], an entry bearing the
    queried name otherwise, and it faults only when [Index] does. *)
Theorem Lookup_At_Index st r sc pkg name :
  scopes st !! r = Some sc →
  match Index st (Some r) pkg name with
  | Ok i =>
      -1 ≤ i < Z.of_nat (length (entries sc))
      ∧ (i = -1 → Lookup st (Some r) pkg name = Ok None)
      ∧ (0 ≤ i → ∃ o, At st (Some r) i = Ok o
                    ∧ Lookup st (Some r) pkg name = Ok (Some o)
                    ∧ Name o = name)
  | Panic => Lookup st (Some r) pkg name = Panic
  end.
Proof.
  intros Hr. destruct pkg as [q|].
  - rewrite (Lookup_qualified_find _ _ _ _ _ Hr),
      (Index_qualified_find _ _ _ _ _ Hr).
    destruct (list_find _ _) as [[k o]|] eqn:Hf.
    + apply list_find_Some in Hf as (Hk & [Hn _] & _).
      destruct (decide _); [|done].
      apply lookup_lt_Some in Hk as Hlt.
      split; [lia|]. split; [lia|]. intros _. exists o.
      by rewrite (At_lookup _ _ _ _ _ Hr Hk).
    + split; [lia|]. split; [done|]. lia.
  - rewrite (Lookup_unqualified_find _ _ _ _ Hr),
      (Index_unqualified_find _ _ _ _ Hr).
    destruct (list_find _ _) as [[k o]|] eqn:Hf; simpl.
    + apply list_find_Some in Hf as (Hk & Hn & _).
      apply lookup_lt_Some in Hk as Hlt.
      split; [lia|]. split; [lia|]. intros _. exists o.
      by rewrite (At_lookup _ _ _ _ _ Hr Hk).
    + split; [lia|]. split; [done|]. lia.
Qed.

(** X13. [IsEmpty] is true exactly when [NumEntries] is 0; then [At]
    faults at every index and every query is answered not-found; otherwise
    [At 0] answers the first entry. *)
Theorem IsEmpty_NumEntries st r sc :
  scopes st !! r = Some sc →
  ∃ b n, IsEmpty st (Some r) = Ok b
    ∧ NumEntries st (Some r) = Ok n
    ∧ (b = true ↔ n = 0)
    ∧ (b = true → ∀ i pkg name,
         At st (Some r) i = Panic
         ∧ Index st (Some r) pkg name = Ok (-1)
         ∧ Lookup st (Some r) pkg name = Ok None)
    ∧ (b = false → ∃ o, At st (Some r) 0 = Ok o ∧ entries sc !! 0%nat = Some o).
Proof.
  intros Hr. eexists _, _.
  split; [unfold IsEmpty, deref; rewrite Hr; reflexivity|].
  split; [unfold NumEntries, deref; rewrite Hr; reflexivity|].
  split; [by rewrite bool_decide_eq_true|].
  split.
  - intros Hb%bool_decide_eq_true i pkg name.
    assert (entries sc = []) as Hes by (destruct (entries sc); [done|simpl in Hb; lia]).
    destruct (empty_scope_reads st r sc pkg name 0 Hr Hes) as (_ & _ & Hi & Hl & _).
    split; [|done]. unfold At, deref. rewrite Hr. simpl. rewrite Hes.
    case_bool_decide; [|done]. by rewrite lookup_nil.
  - intros Hb%bool_decide_eq_false.
    destruct (entries sc) as [|o es] eqn:Hes; [done|].
    exists o. split; [|done]. unfold At, deref. rewrite Hr. simpl.
    by rewrite Hes.
Qed.

(** ** The exact outcome of a qualified query *)

(** X4. With a non-nil qualifier, whenever [Index] answers, the answer is
    the first match of the identity rule; and it faults exactly when the
    name is not exported and a package-less entry of that name comes before
    every matching entry. *)
Theorem Index_qualified_outcome st r sc q name :
  scopes st !! r = Some sc →
  (∀ i, Index st (Some r) (Some q) name = Ok i →
        first_match (qualified_match q name) (entries sc) i)
  ∧ (Index st (Some r) (Some q) name = Panic
     ↔ IsExported name = false
       ∧ ∃ (k : nat) e, entries sc !! k = Some e ∧ Name e = name
           ∧ Pkg e = None
           ∧ ∀ j a, entries sc !! j = Some a → (j < k)%nat →
                    ¬ qualified_match q name a).
Proof.
  intros Hr. rewrite (Index_qualified_find _ _ _ _ _ Hr).
  destruct (list_find _ _) as [[k e]|] eqn:Hf.
  - apply list_find_Some in Hf as (Hk & Hstop & Hleast).
    destruct (decide (qualified_match q name e)) as [Hm|Hnm].
    + split.
      * intros i [= <-]. right. split; [lia|]. exists e.
        replace (Z.to_nat (0 + Z.of_nat k)) with k by lia.
        split_and!; [done..|]. intros j a Hj Hlt Hma.
        by apply (Hleast j a Hj Hlt), qualified_match_scan_stop.
      * split; [done|]. intros (Hex & k' & e' & Hk' & Hn' & Hnil' & Hleast').
        destruct (Nat.lt_trichotomy k k') as [Hlt|[<-|Hlt]].
        -- by destruct (Hleast' k e Hk Hlt).
        -- simplify_eq. destruct Hm as [_ [?|Hq]]; [congruence|].
           by rewrite Hnil' in Hq.
        -- destruct (Hleast k' e' Hk' Hlt). split; auto.
    + split; [done|]. split; [intros _|done].
      destruct Hstop as [Hn [Hex|[Hnil|Hq]]].
      * destruct Hnm. by split; [|left].
      * split.
        { destruct (IsExported name) eqn:Hex; [|done].
          destruct Hnm. by split; [|left]. }
        exists k, e. split_and!; [done..|]. intros j a Hj Hlt Hma.
        by apply (Hleast j a Hj Hlt), qualified_match_scan_stop.
      * destruct Hnm. by split; [|right].
  - apply list_find_None in Hf. split.
    + intros i [= <-]. left. split; [done|]. intros o Ho Hm.
      eapply Forall_forall in Hf; [|done].
      by apply Hf, qualified_match_scan_stop.
    + split; [done|]. intros (Hex & k & e & Hk & Hn & Hnil & _).
      eapply Forall_lookup_1 in Hf; [|done]. destruct Hf. split; auto.
Qed.

(** ** [Insert] followed by queries *)

(** After [o] was appended, the query with its own package and name finds
    it, at the position where it was put. *)
Lemma Lookup_after_append st r sc o :
  scopes st !! r = Some sc →
  Lookup st (Some r) (Pkg o) (Name o) = Ok None →
  Index (appended st r sc o) (Some r) (Pkg o) (Name o)
    = Ok (Z.of_nat (length (entries sc)))
  ∧ Lookup (appended st r sc o) (Some r) (Pkg o) (Name o) = Ok (Some o).
Proof.
  intros Hr Hl.
  assert (scopes (appended st r sc o) !! r
          = Some (mkScope (parent sc) (entries sc ++ [o]))) as Hr'
    by (simpl; by rewrite lookup_insert_eq).
  destruct (Pkg o) as [q|] eqn:Hq.
  - rewrite (Lookup_qualified_find _ _ _ _ _ Hr) in Hl.
    rewrite (Lookup_qualified_find _ _ _ _ _ Hr'),
      (Index_qualified_find _ _ _ _ _ Hr'). simpl.
    destruct (list_find _ (entries sc)) as [[k a]|] eqn:Hf;
      [by destruct (decide _)|].
    rewrite (list_find_app_r _ _ _ Hf). simpl.
    assert (qualified_match q (Name o) o) as Hm
      by (split; [done|right; by rewrite Hq]).
    rewrite decide_True by (by apply qualified_match_scan_stop). simpl.
    rewrite !decide_True by done. split; [f_equal; lia|done].
  - rewrite (Lookup_unqualified_find _ _ _ _ Hr) in Hl.
    rewrite (Lookup_unqualified_find _ _ _ _ Hr'),
      (Index_unqualified_find _ _ _ _ Hr'). simpl.
    destruct (list_find _ (entries sc)) as [[k a]|] eqn:Hf; [done|].
    rewrite (list_find_app_r _ _ _ Hf). simpl.
    rewrite decide_True by done. simpl. split; [f_equal; lia|done].
Qed.

(** X5. Round trip: right after an [Insert] that returned nil, [Lookup]
    with the object's package and name answers that very object, [Index]
    answers the former [NumEntries()], and [NumEntries()] has grown by one. *)
Theorem Insert_then_Lookup st r sc o st' :
  scopes st !! r = Some sc →
  Insert st (Some r) (Some o) = Ok (st', None) →
  Lookup st' (Some r) (Pkg o) (Name o) = Ok (Some o)
  ∧ Index st' (Some r) (Pkg o) (Name o) = NumEntries st (Some r)
  ∧ NumEntries st' (Some r) = Ok (Z.of_nat (length (entries sc)) + 1).
Proof.
  intros Hr (o' & [= <-] & [(a & ? & _)|(_ & r' & sc' & [= <-] & Hr' & Hl & ->)])%Insert_inv;
    [done|].
  simplify_eq.
  destruct (Lookup_after_append _ _ _ _ Hr Hl) as [Hi Hl'].
  split_and!; [done| |].
  - rewrite Hi. unfold NumEntries, deref. by rewrite Hr.
  - unfold NumEntries, deref. simpl. rewrite lookup_insert_eq. simpl.
    rewrite length_app. simpl. f_equal. lia.
Qed.

(** X6. Declaring the same object a second time in the same scope is a
    conflict with itself: the second [Insert] returns the object and leaves
    the store as the first one made it. *)
Theorem Insert_twice st r o st' :
  Insert st (Some r) (Some o) = Ok (st', None) →
  Insert st' (Some r) (Some o) = Ok (st', Some o).
Proof.
  intros (o' & [= <-] & [(a & ? & _)|(_ & r' & sc & [= <-] & Hr & Hl & ->)])%Insert_inv;
    [done|].
  destruct (Lookup_after_append _ _ _ _ Hr Hl) as [_ Hl'].
  unfold Insert. by rewrite Hl'.
Qed.

(** What an [Insert] that returns does to the scopes: each keeps its parent
    and its entries, the receiver possibly with one more at the end. *)
Lemma Insert_extends st s (arg : option Object) st' alt r sc :
  Insert st s arg = Ok (st', alt) →
  scopes st !! r = Some sc →
  ∃ sc', scopes st' !! r = Some sc'
    ∧ parent sc' = parent sc
    ∧ entries sc `prefix_of` entries sc'
    ∧ (s ≠ Some r → sc' = sc).
Proof.
  intros (o & -> & [(a & _ & -> & _)|(_ & r0 & sc0 & -> & Hr0 & _ & ->)])%Insert_inv Hr.
  - by exists sc.
  - simpl. destruct (decide (r0 = r)) as [<-|Hne].
    + rewrite lookup_insert_eq. simplify_eq. eexists. split; [done|].
      split; [done|]. split; [by apply prefix_app_r|done].
    + rewrite lookup_insert_ne by done. exists sc. split_and!; try done.
Qed.

Lemma Lookup_prefix st st' r sc sc' pkg name a :
  scopes st !! r = Some sc →
  scopes st' !! r = Some sc' →
  entries sc `prefix_of` entries sc' →
  Lookup st (Some r) pkg name = Ok (Some a) →
  Lookup st' (Some r) pkg name = Ok (Some a).
Proof.
  intros Hr Hr' [ext Hext]. destruct pkg as [q|].
  - rewrite (Lookup_qualified_find _ _ _ _ _ Hr),
      (Lookup_qualified_find _ _ _ _ _ Hr'), Hext.
    destruct (list_find _ (entries sc)) as [[k e]|] eqn:Hf; [|done].
    by rewrite (list_find_app_l _ _ _ _ _ Hf).
  - rewrite (Lookup_unqualified_find _ _ _ _ Hr),
      (Lookup_unqualified_find _ _ _ _ Hr'), Hext.
    destruct (list_find _ (entries sc)) as [[k e]|] eqn:Hf; [|done].
    by rewrite (list_find_app_l _ _ _ _ _ Hf).
Qed.

(** X7. An [Insert] that returns never disturbs what is declared: every
    scope keeps its parent, its entries stay at their positions (the
    receiver may get one more at the end, other scopes are untouched), and
    every query that found an entry before finds the same entry after. *)
Theorem Insert_stable st s (arg : option Object) st' alt r sc :
  Insert st s arg = Ok (st', alt) →
  scopes st !! r = Some sc →
  ∃ sc', scopes st' !! r = Some sc'
    ∧ parent sc' = parent sc
    ∧ entries sc `prefix_of` entries sc'
    ∧ (s ≠ Some r → sc' = sc)
    ∧ (∀ (i : nat) o, entries sc !! i = Some o →
                      At st' (Some r) (Z.of_nat i) = Ok o)
    ∧ (∀ pkg name a, Lookup st (Some r) pkg name = Ok (Some a) →
                     Lookup st' (Some r) pkg name = Ok (Some a)).
Proof.
  intros Hins Hr.
  destruct (Insert_extends _ _ _ _ _ _ _ Hins Hr) as (sc' & Hr' & Hp & Hpre & Hoth).
  exists sc'. split_and!; [done..| |].
  - intros i o Hi. apply (At_lookup _ _ _ _ _ Hr').
    destruct Hpre as [ext ->]. by apply lookup_app_l_Some.
  - intros pkg name a. by apply (Lookup_prefix _ _ _ _ _ _ _ _ Hr Hr' Hpre).
Qed.

(** X19. When [Insert] cannot fault: on an allocated scope, for an object
    without package, or with an exported name, or when every entry already
    spelled like it has a package, [Insert] returns. *)
Theorem Insert_returns st r sc o :
  scopes st !! r = Some sc →
  (Pkg o = None
   ∨ IsExported (Name o) = true
   ∨ ∀ e, e ∈ entries sc → Name e = Name o → Pkg e ≠ None) →
  ∃ st' alt, Insert st (Some r) (Some o) = Ok (st', alt).
Proof.
  intros Hr Hsafe.
  assert (∃ alt, Lookup st (Some r) (Pkg o) (Name o) = Ok alt) as [alt Hl].
  { destruct (Pkg o) as [q|] eqn:Hq.
    - rewrite (Lookup_qualified_find _ _ _ _ _ Hr).
      destruct (list_find _ _) as [[k e]|] eqn:Hf; [|by eexists].
      apply list_find_Some in Hf as (Hk & Hstop & _).
      rewrite decide_True; [by eexists|].
      apply scan_stop_qualified_match; [done|].
      destruct Hsafe as [?|[?|Hsafe]]; [done|by left|right].
      apply Hsafe; [by eapply list_elem_of_lookup_2|apply Hstop].
    - rewrite (Lookup_unqualified_find _ _ _ _ Hr). by eexists. }
  destruct alt as [a|].
  - exists st, (Some a). unfold Insert. by rewrite Hl.
  - exists (appended st r sc o), None. by apply Insert_append.
Qed.

(** X15. A driver's run of [Insert] calls on one scope: the scope ends up
    with its former entries followed by exactly the objects for which
    [Insert] returned nil, in call order; other scopes are untouched. *)
Theorem insert_all_accepted st r sc objs st' res :
  scopes st !! r = Some sc →
  insert_all st (Some r) objs = Ok (st', res) →
  length res = length objs
  ∧ scopes st' !! r
      = Some (mkScope (parent sc) (entries sc ++ accepted objs res))
  ∧ ∀ r', r' ≠ r → scopes st' !! r' = scopes st !! r'.
Proof.
  revert st sc st' res.
  induction objs as [|o objs IH]; intros st sc st' res Hr Hall.
  - simpl in Hall. simplify_eq. simpl. rewrite app_nil_r. by destruct sc.
  - cbn [insert_all] in Hall.
    destruct (Insert st (Some r) (Some o)) as [[st1 alt]|] eqn:Hins; [|done].
    cbn [bind fst snd] in Hall.
    destruct (insert_all st1 (Some r) objs) as [[st2 res2]|] eqn:Hrest; [|done].
    cbn [bind fst snd] in Hall. simplify_eq.
    apply Insert_inv in Hins
      as (o' & [= <-] & [(a & -> & -> & _)|(-> & r' & sc' & [= <-] & Hr' & _ & ->)]).
    + destruct (IH _ _ _ _ Hr Hrest) as (Hlen & Hr2 & Hoth).
      split_and!; [simpl; by rewrite Hlen|done|done].
    + simplify_eq.
      destruct (IH (appended st r sc o)
                   (mkScope (parent sc) (entries sc ++ [o])) st' res2)
        as (Hlen & Hr2 & Hoth); [simpl; by rewrite lookup_insert_eq|done|].
      split_and!; [simpl; by rewrite Hlen| |].
      * rewrite Hr2. simpl. by rewrite <- app_assoc.
      * intros r' Hne. rewrite Hoth by done. simpl.
        by rewrite lookup_insert_ne.
Qed.

(** ** Invariants of the reachable stores *)

Lemma step_unique_identities st st' :
  step st st' → unique_identities st → unique_identities st'.
Proof.
  intros Hstep Hinv. destruct Hstep as [st p _|st s arg st' alt Hins].
  - intros r sc i j a b Hr Hi Hj Hlt Hn. simpl in Hr.
    destruct (decide (fresh (dom (scopes st)) = r)) as [<-|Hne].
    + rewrite lookup_insert_eq in Hr. by simplify_eq.
    + rewrite lookup_insert_ne in Hr by done.
      by apply (Hinv r sc i j a b).
  - apply Insert_inv in Hins
      as (o & -> & [(a & _ & -> & _)|(_ & r0 & sc0 & -> & Hr0 & Hl & ->)]);
      [done|].
    intros r sc i j a b Hr Hi Hj Hlt Hn. simpl in Hr.
    destruct (decide (r0 = r)) as [<-|Hne].
    + rewrite lookup_insert_eq in Hr. simplify_eq. simpl in *.
      destruct (decide (j < length (entries sc0))%nat) as [Hjl|Hjl].
      * rewrite lookup_app_l in Hi, Hj by lia.
        by apply (Hinv r0 sc0 i j a b).
      * rewrite lookup_app_r in Hj by lia.
        destruct (j - length (entries sc0))%nat as [|n] eqn:Hj0; [|done].
        simpl in Hj. simplify_eq.
        rewrite lookup_app_l in Hi by lia.
        apply list_elem_of_lookup_2 in Hi as Ha.
        destruct (Pkg b) as [q|] eqn:Hq.
        -- rewrite (Lookup_qualified_find _ _ _ _ _ Hr0) in Hl.
           destruct (list_find _ _) as [[k e]|] eqn:Hf;
             [by destruct (decide _)|].
           apply list_find_None in Hf.
           eapply Forall_forall in Hf; [|exact Ha].
           rewrite Hn. split.
           ++ destruct (IsExported (Name b)) eqn:Hex; [|done].
              destruct Hf. split; auto.
           ++ destruct (Pkg a) as [p|] eqn:Hp.
              ** exists p, q. split_and!; [done..|]. intros Hpath.
                 destruct Hf. split; [done|]. right; right.
                 rewrite Hp. simpl. by rewrite Hpath.
              ** destruct Hf. split; auto.
        -- destruct (Lookup_None_no_match _ _ _ _ _ Hr0 Hl a Ha). done.
    + rewrite lookup_insert_ne in Hr by done.
      by apply (Hinv r sc i j a b).
Qed.

Lemma reachable_unique_identities st : reachable st → unique_identities st.
Proof.
  intros Hreach.
  apply (rtc_ind_r (R := step) unique_identities empty_state);
    [| |exact Hreach].
  - intros r sc i j a b Hr. simpl in Hr. by rewrite lookup_empty in Hr.
  - intros y z _ Hstep IH. by apply (step_unique_identities y z).
Qed.

(** X8. Uniqueness of declarations: in a store built by [NewScope] and
    [Insert], two different entries of one scope bear the same name only
    when that name is not exported and they come from packages with
    different paths.  In particular an entry without package, and an entry
    with an exported name, is the only one of its name in its scope. *)
Theorem reachable_same_name st r sc (i j : nat) a b :
  reachable st →
  scopes st !! r = Some sc →
  entries sc !! i = Some a →
  entries sc !! j = Some b →
  i ≠ j →
  Name a = Name b →
  IsExported (Name a) = false
  ∧ ∃ p q, Pkg a = Some p ∧ Pkg b = Some q ∧ path p ≠ path q.
Proof.
  intros Hinv%reachable_unique_identities Hr Hi Hj Hne Hn.
  destruct (Nat.lt_trichotomy i j) as [Hlt|[?|Hlt]]; [|done|].
  - by apply (Hinv r sc i j a b).
  - destruct (Hinv r sc j i b a) as (Hex & q & p & Hq & Hp & Hpath);
      [done..| |].
    + done.
    + rewrite Hn. split; [done|]. exists p, q. split_and!; [done..|].
      by intros ?.
Qed.

(** X9. In a store built by [NewScope] and [Insert], no object occurs twice
    in the entries of a scope, whatever the scope declares, and a qualified
    query is never ambiguous: two entries of a scope that match the same
    package and name are one entry. *)
Theorem reachable_match_unique st r sc :
  reachable st →
  scopes st !! r = Some sc →
  NoDup (entries sc)
  ∧ ∀ q name a b, a ∈ entries sc → b ∈ entries sc →
      qualified_match q name a → qualified_match q name b → a = b.
Proof.
  intros Hinv%reachable_unique_identities Hr.
  assert (∀ (i j : nat) x y, entries sc !! i = Some x →
            entries sc !! j = Some y → (i < j)%nat → x ≠ y) as Hdiff.
  { intros i j x y Hi Hj Hlt ->.
    destruct (Hinv r sc i j y y Hr Hi Hj Hlt eq_refl)
      as (_ & p & p' & Hp & Hp' & Hpath). congruence. }
  split.
  - apply NoDup_alt. intros i j x Hi Hj.
    destruct (Nat.lt_trichotomy i j) as [Hlt|[?|Hlt]]; [|done|].
    + by destruct (Hdiff i j x x).
    + by destruct (Hdiff j i x x).
  - intros q name a b Ha Hb Hma Hmb.
    apply list_elem_of_lookup_1 in Ha as [i Hi].
    apply list_elem_of_lookup_1 in Hb as [j Hj].
    destruct Hma as [Hna Hqa], Hmb as [Hnb Hqb].
    assert (∀ (i j : nat) x y, entries sc !! i = Some x →
              entries sc !! j = Some y → (i < j)%nat →
              Name x = name → Name y = name →
              (IsExported name = true ∨ path <$> Pkg x = Some (path q)) →
              (IsExported name = true ∨ path <$> Pkg y = Some (path q)) →
              False) as Hno.
    { intros i' j' x y Hi' Hj' Hlt Hnx Hny Hqx Hqy.
      destruct (Hinv r sc i' j' x y Hr Hi' Hj' Hlt)
        as (Hex & p & p' & Hp & Hp' & Hpath); [congruence|].
      rewrite Hnx in Hex.
      destruct Hqx as [?|Hqx]; [congruence|].
      destruct Hqy as [?|Hqy]; [congruence|].
      rewrite Hp in Hqx. rewrite Hp' in Hqy. simpl in *. congruence. }
    destruct (Nat.lt_trichotomy i j) as [Hlt|[<-|Hlt]].
    + by destruct (Hno i j a b).
    + congruence.
    + by destruct (Hno j i b a).
Qed.

Lemma step_extends st st' r sc :
  step st st' →
  scopes st !! r = Some sc →
  ∃ sc', scopes st' !! r = Some sc'
    ∧ parent sc' = parent sc
    ∧ entries sc `prefix_of` entries sc'.
Proof.
  intros [st0 p _|st0 s arg st1 alt Hins] Hr.
  - exists sc. split; [|done]. simpl. rewrite lookup_insert_ne; [done|].
    intros Heq. pose proof (is_fresh (dom (scopes st0))) as Hfresh.
    rewrite Heq in Hfresh. apply Hfresh, elem_of_dom. by eexists.
  - destruct (Insert_extends _ _ _ _ _ _ _ Hins Hr) as (sc' & ? & ? & ? & _).
    by exists sc'.
Qed.

(** X10. Declarations are permanent: whatever [NewScope] and [Insert] calls
    follow, a scope stays allocated, keeps its parent, and keeps its entries
    at their positions; nothing is ever removed, reordered or re-parented. *)
Theorem steps_monotone st st' r sc :
  rtc step st st' →
  scopes st !! r = Some sc →
  ∃ sc', scopes st' !! r = Some sc'
    ∧ parent sc' = parent sc
    ∧ entries sc `prefix_of` entries sc'
    ∧ ∀ (i : nat) o, entries sc !! i = Some o →
        At st' (Some r) (Z.of_nat i) = Ok o.
Proof.
  intros Hsteps Hr.
  assert (∃ sc', scopes st' !! r = Some sc' ∧ parent sc' = parent sc
            ∧ entries sc `prefix_of` entries sc') as (sc' & Hr' & Hp & Hpre).
  { revert sc Hr. induction Hsteps as [st|st st1 st2 Hstep _ IH]; intros sc Hr.
    - by exists sc.
    - destruct (step_extends _ _ _ _ Hstep Hr) as (sc1 & Hr1 & Hp1 & Hpre1).
      destruct (IH _ Hr1) as (sc2 & Hr2 & Hp2 & Hpre2).
      exists sc2. split_and!; [done|congruence|by etrans]. }
  exists sc'. split_and!; [done..|].
  intros i o Hi. apply (At_lookup _ _ _ _ _ Hr').
  destruct Hpre as [ext ->]. by apply lookup_app_l_Some.
Qed.

(** ** [LookupParent] along a finite chain *)

Lemma LookupParent_chain_result st s l name fuel :
  segment st s l None →
  (length l ≤ fuel)%nat →
  ∃ res, LookupParent fuel st s name = Some (Ok res)
    ∧ match res with
      | Some o =>
          ∃ pre t post, l = pre ++ t :: post
            ∧ (∀ r', r' ∈ pre → Lookup st (Some r') None name = Ok None)
            ∧ Lookup st (Some t) None name = Ok (Some o)
      | None => ∀ r', r' ∈ l → Lookup st (Some r') None name = Ok None
      end.
Proof.
  intros Hseg. revert fuel. remember None as e eqn:He.
  induction Hseg as [s|r sc l e Hr Hseg IH]; intros fuel Hfuel; subst.
  - exists None. split; [by destruct fuel|]. by intros r' ?%elem_of_nil.
  - destruct fuel as [|fuel]; [simpl in Hfuel; lia|].
    rewrite LookupParent_S, (Index_unqualified_find _ _ _ _ Hr).
    pose proof (Lookup_unqualified_find _ _ _ name Hr) as Hl.
    destruct (list_find _ _) as [[k o]|] eqn:Hf; cbn [found_at].
    + apply list_find_Some in Hf as (Hk & _).
      rewrite bool_decide_eq_true_2 by lia.
      rewrite (At_lookup _ _ _ _ _ Hr Hk). exists (Some o). split; [done|].
      exists [], r, l. split; [done|]. split; [by intros r' ?%elem_of_nil|done].
    + rewrite bool_decide_eq_false_2 by lia.
      unfold Parent, deref. rewrite Hr. cbn [bind].
      destruct (IH eq_refl fuel) as (res & Hres & Hspec);
        [simpl in Hfuel; lia|].
      exists res. split; [done|]. destruct res as [o|].
      * destruct Hspec as (pre & t & post & -> & Hpre & Ht).
        exists (r :: pre), t, post. split; [done|]. split; [|done].
        intros r' [->|Hin]%elem_of_cons; [done|by apply Hpre].
      * intros r' [->|Hin]%elem_of_cons; [done|by apply Hspec].
Qed.

(** X11. On a finite ancestor chain [LookupParent] never faults, and does
    what its comment says: it answers the entry [Lookup(nil, name)] finds in
    the first scope of the chain where that is not nil, and nil when
    [Lookup(nil, name)] is nil in every scope of the chain. *)
Theorem LookupParent_finds st r l name fuel :
  segment st (Some r) l None →
  (length l ≤ fuel)%nat →
  ∃ res, LookupParent fuel st (Some r) name = Some (Ok res)
    ∧ match res with
      | Some o =>
          ∃ pre t post, l = pre ++ t :: post
            ∧ (∀ r', r' ∈ pre → Lookup st (Some r') None name = Ok None)
            ∧ Lookup st (Some t) None name = Ok (Some o)
      | None => ∀ r', r' ∈ l → Lookup st (Some r') None name = Ok None
      end.
Proof. apply LookupParent_chain_result. Qed.

Lemma segment_allocated st s l e r :
  segment st s l e → r ∈ l → is_Some (scopes st !! r).
Proof.
  induction 1 as [s|r0 sc l e Hr Hseg IH]; intros Hin.
  - by apply elem_of_nil in Hin.
  - apply elem_of_cons in Hin as [->|Hin]; [by eexists|by apply IH].
Qed.

(** X12. In a store built by [NewScope] and [Insert], [LookupParent] from
    any scope returns without a fault, within as many iterations as there
    are scopes in the store. *)
Theorem reachable_LookupParent_bound st r name :
  reachable st →
  is_Some (scopes st !! r) →
  ∃ res, LookupParent (size (scopes st)) st (Some r) name = Some (Ok res).
Proof.
  intros Hreach Hr.
  destruct (reachable_chains_finite st Hreach r Hr) as [l Hl].
  assert (length l ≤ size (scopes st))%nat as Hlen.
  { rewrite <- (size_list_to_set (C := gset positive) l)
      by (by eapply segment_NoDup).
    rewrite <- (size_dom (D := gset positive) (scopes st)).
    apply subseteq_size. intros x Hx%elem_of_list_to_set.
    apply elem_of_dom. by eapply segment_allocated. }
  destruct (LookupParent_chain_result st (Some r) l name _ Hl Hlen)
    as (res & Hres & _).
  by exists res.
Qed.

(** ** [String] *)

Lemma string_length_app (a b : string) :
  String.length (a +:+ b) = (String.length a + String.length b)%nat.
Proof. induction a as [|c a IH]; simpl; [done|by rewrite IH]. Qed.

(** X14. [String] tells the nil scope from every allocated scope, an empty
    one included: on nil it answers ["scope {}"] without a line end, on an
    allocated scope a longer text that carries the scope's address. *)
Theorem Scope_String_nil_distinct `{Fmt} st r sc :
  scopes st !! r = Some sc →
  ∃ str, Scope_String st (Some r) = Ok str
    ∧ Scope_String st None = Ok "scope {}"
    ∧ (10 + String.length (fmt_pointer r) ≤ String.length str)%nat
    ∧ str ≠ "scope {}".
Proof.
  intros Hr. unfold Scope_String at 1. unfold deref. rewrite Hr. cbn [bind].
  eexists. split; [reflexivity|]. split; [done|].
  match goal with |- (_ ≤ String.length ?str)%nat ∧ _ =>
    assert (10 + String.length (fmt_pointer r) ≤ String.length str)%nat as Hlen
  end.
  { rewrite !string_length_app. simpl. lia. }
  split; [exact Hlen|]. intros Heq. rewrite Heq in Hlen. simpl in Hlen. lia.
Qed.

End Extensions.

(** * The theorems at work on sample stores *)

Section Samples.

#[local] Existing Instance ascii_rule.
#[local] Existing Instance plain_fmt.

Lemma reachable_st_root : reachable st_root.
Proof. apply rtc_once. by apply (step_NewScope empty_state None). Qed.

Lemma reachable_st_universe : reachable st_universe.
Proof.
  eapply rtc_r; [apply reachable_st_root|].
  by apply (step_Insert st_root (Some 1%positive) (Some obj_x_builtin)
              st_universe None).
Qed.

(** *** Qualified queries *)

(** The rule on [x] of [p] and [x] of [q] in one scope, queried from [q]. *)
Lemma Index_qualified_rule_sample :
  scopes st_x_pq !! 1%positive = Some (mkScope None [obj_x_p; obj_x_q])
  ∧ ∃ i, Index st_x_pq (Some 1%positive) (Some pkg_q) "x" = Ok i
      ∧ first_match (qualified_match pkg_q "x") [obj_x_p; obj_x_q] i
      ∧ Lookup st_x_pq (Some 1%positive) (Some pkg_q) "x"
          = Ok (if bool_decide (0 ≤ i) then [obj_x_p; obj_x_q] !! Z.to_nat i
                else None).
Proof.
  split; [reflexivity|].
  apply (Index_qualified_rule st_x_pq 1 (mkScope None [obj_x_p; obj_x_q])
           pkg_q "x" eq_refl).
  right. intros o Ho _.
  apply elem_of_cons in Ho as [->|Ho]; [discriminate|].
  apply elem_of_cons in Ho as [->|Ho]; [discriminate|].
  by apply elem_of_nil in Ho.
Defined.

(** C1. The qualified identity rule does not hold on every scope: the
    universe-like scope declares the built-in [x], which has no package.  No
    entry matches the query ([p], [x]) under the rule, so the rule, like the
    comment on [Index], asks for a negative answer; [Index] and [Lookup]
    fault instead. *)
Lemma Index_qualified_faults_on_builtin :
  reachable st_universe
  ∧ scopes st_universe !! 1%positive = Some (mkScope None [obj_x_builtin])
  ∧ first_match (qualified_match pkg_p "x") [obj_x_builtin] (-1)
  ∧ Index st_universe (Some 1%positive) (Some pkg_p) "x" = Panic
  ∧ Index st_universe (Some 1%positive) (Some pkg_p) "x" ≠ Ok (-1)
  ∧ Lookup st_universe (Some 1%positive) (Some pkg_p) "x" = Panic.
Proof.
  split_and!; [apply reachable_st_universe|reflexivity| |reflexivity|done
              |reflexivity].
  left. split; [done|]. intros o Ho [_ [Hex|Hq]].
  - discriminate.
  - apply list_elem_of_singleton in Ho as ->. discriminate.
Qed.

(** The visibility law on [x] of [p] and [x] of [q]: a third package finds
    neither, each origin finds its own; an exported name is found from
    everywhere. *)
Example visibility_law :
  Lookup st_x_pq (Some 1%positive) (Some pkg_r) "x" = Ok None
  ∧ Lookup st_x_pq (Some 1%positive) (Some pkg_p) "x" = Ok (Some obj_x_p)
  ∧ Lookup st_x_pq (Some 1%positive) (Some pkg_q) "x" = Ok (Some obj_x_q)
  ∧ Lookup st_Pi (Some 1%positive) (Some pkg_r) "Pi" = Ok (Some obj_Pi_math)
  ∧ Lookup st_Pi (Some 1%positive) (Some pkg_math) "Pi" = Ok (Some obj_Pi_math).
Proof. by split_and!. Qed.

(** C10, witness: the query ([p], [x]) on the universe-like scope. *)
Lemma Index_no_package_entry_faults_witness :
  reachable st_universe
  ∧ scopes st_universe !! 1%positive = Some (mkScope None [obj_x_builtin])
  ∧ Index st_universe (Some 1%positive) (Some pkg_p) "x" = Panic
  ∧ Lookup st_universe (Some 1%positive) (Some pkg_p) "x" = Panic
  ∧ ∀ o, Name o = "x" → Pkg o = Some pkg_p →
         Insert st_universe (Some 1%positive) (Some o) = Panic.
Proof.
  split; [apply reachable_st_universe|]. split; [reflexivity|].
  apply (Index_no_package_entry_faults st_universe 1
           (mkScope None [obj_x_builtin]) obj_x_builtin pkg_p "x").
  - apply reachable_st_universe.
  - reflexivity.
  - simpl. left.
  - reflexivity.
  - reflexivity.
  - reflexivity.
Defined.

(** Outside the reachable stores the fault can be masked: were an entry of
    the same spelling placed before the built-in, the scan would stop there. *)
Example masked_fault :
  index_pkg pkg_p "x" [obj_x_p; obj_x_builtin] 0 = Ok 0
  ∧ ¬ reachable (mkState {[ 1%positive := mkScope None [obj_x_p; obj_x_builtin] ]} ∅).
Proof.
  split; [reflexivity|].
  intros Hreach%reachable_nopkg_first.
  apply (Hreach 1%positive (mkScope None [obj_x_p; obj_x_builtin])
           0%nat 1%nat obj_x_p obj_x_builtin);
    [reflexivity|reflexivity|reflexivity|lia|reflexivity|reflexivity].
Qed.

(** *** Unqualified queries and shadowing *)

(** C7, witness: the first of the two entries spelled [x]. *)
Lemma Index_unqualified_first_match_witness :
  scopes st_x_pq !! 1%positive = Some (mkScope None [obj_x_p; obj_x_q])
  ∧ ∃ i, Index st_x_pq (Some 1%positive) None "x" = Ok i
      ∧ first_match (name_match "x") [obj_x_p; obj_x_q] i.
Proof.
  split; [reflexivity|].
  exact (Index_unqualified_first_match st_x_pq 1
           (mkScope None [obj_x_p; obj_x_q]) "x" eq_refl).
Defined.

Example first_of_two : Index st_x_pq (Some 1%positive) None "x" = Ok 0.
Proof. reflexivity. Qed.

(** C2, witness: the child at 2 declares nothing, the parent at 1 declares
    [x]; the search from the child answers the parent's [x]. *)
Lemma LookupParent_innermost_witness :
  segment st_parent_x (Some 2%positive) [2%positive] (Some 1%positive)
  ∧ scopes st_parent_x !! 1%positive = Some (mkScope None [obj_x_p])
  ∧ LookupParent 2 st_parent_x (Some 2%positive) "x" = Some (Ok (Some obj_x_p)).
Proof.
  assert (segment st_parent_x (Some 2%positive) [2%positive] (Some 1%positive))
    as Hseg.
  { apply (segment_cons _ 2%positive (mkScope (Some 1%positive) []) []
             (Some 1%positive)); [reflexivity|apply segment_nil]. }
  split; [exact Hseg|]. split; [reflexivity|].
  apply (LookupParent_innermost st_parent_x 2%positive [2%positive] 1%positive
           (mkScope None [obj_x_p]) 0 obj_x_p "x" 2 Hseg).
  - intros r' sc' o' Hin Hsc Ho.
    apply list_elem_of_singleton in Hin as ->.
    vm_compute in Hsc. injection Hsc as <-. by apply elem_of_nil in Ho.
  - reflexivity.
  - reflexivity.
  - reflexivity.
  - intros j o' _ Hj. lia.
  - simpl. lia.
Defined.

(** Shadowing: once the child declares its own [x], the search from the
    child answers it, and the search from the parent still answers the
    parent's. *)
Example shadowing :
  LookupParent 2 st_shadow (Some 2%positive) "x" = Some (Ok (Some obj_x_q))
  ∧ LookupParent 2 st_parent_x (Some 2%positive) "x" = Some (Ok (Some obj_x_p))
  ∧ LookupParent 2 st_shadow (Some 1%positive) "x" = Some (Ok (Some obj_x_p))
  ∧ Lookup st_shadow (Some 1%positive) (Some pkg_q) "x" = Ok None.
Proof. by split_and!. Qed.

(** C8, witness: a name declared nowhere, searched from the child scope of
    a chain of depth 2. *)
Lemma LookupParent_exhausted_chain_witness :
  segment st_nested (Some 2%positive) [2%positive; 1%positive] None
  ∧ LookupParent 2 st_nested (Some 2%positive) "y" = Some (Ok None)
  ∧ LookupParent_visits 2 st_nested (Some 2%positive) "y"
      = Some ([2%positive; 1%positive], Ok None)
  ∧ NoDup [2%positive; 1%positive]
  ∧ ∀ fuel', (fuel' < 2)%nat →
      LookupParent fuel' st_nested (Some 2%positive) "y" = None.
Proof.
  assert (segment st_nested (Some 2%positive) [2%positive; 1%positive] None)
    as Hseg.
  { apply (segment_cons _ 2%positive (mkScope (Some 1%positive) [])
             [1%positive] None); [reflexivity|].
    apply (segment_cons _ 1%positive (mkScope None []) [] None);
      [reflexivity|apply segment_nil]. }
  split; [exact Hseg|].
  apply (LookupParent_exhausted_chain st_nested 2%positive
           [2%positive; 1%positive] "y" 2 Hseg).
  - intros r' sc o Hin Hsc Ho.
    apply elem_of_cons in Hin as [->|Hin].
    + vm_compute in Hsc. injection Hsc as <-. by apply elem_of_nil in Ho.
    + apply list_elem_of_singleton in Hin as ->.
      vm_compute in Hsc. injection Hsc as <-. by apply elem_of_nil in Ho.
  - simpl. lia.
Defined.

(** *** [Insert] *)

(** C3. [Insert] does not append whenever no entry conflicts: the
    universe-like scope declares only the built-in [x], which has no
    package, so no entry matches [x] of package [p] under the identity rule
    and [x] of [p] is not among the entries; yet [Insert] of [x] of [p]
    neither appends it nor returns nil: the conflict check faults on
    [obj.Pkg().path], and [Insert] with it. *)
Lemma Insert_faults_on_builtin :
  reachable st_universe
  ∧ scopes st_universe !! 1%positive = Some (mkScope None [obj_x_builtin])
  ∧ (∀ e, e ∈ [obj_x_builtin] →
          ¬ ident_match (Pkg obj_x_p) (Name obj_x_p) e)
  ∧ (obj_x_p ∉ [obj_x_builtin])
  ∧ Insert st_universe (Some 1%positive) (Some obj_x_p) = Panic
  ∧ (∀ st', Insert st_universe (Some 1%positive) (Some obj_x_p)
              ≠ Ok (st', None)).
Proof.
  split_and!; [apply reachable_st_universe|reflexivity| | |reflexivity|done].
  - intros e He [_ [Hex|Hq]]; [discriminate|].
    apply list_elem_of_singleton in He as ->. discriminate.
  - intros He. apply list_elem_of_singleton in He. discriminate.
Qed.

(** A second [Pi] of package math meets the first one. *)
Lemma Insert_conflict_atomic_sample :
  scopes st_Pi !! 1%positive = Some (mkScope None [obj_Pi_math])
  ∧ Insert st_Pi (Some 1%positive) (Some obj_Pi_math') = Ok (st_Pi, Some obj_Pi_math)
  ∧ obj_Pi_math ∈ [obj_Pi_math]
  ∧ ident_match (Pkg obj_Pi_math') (Name obj_Pi_math') obj_Pi_math
  ∧ (obj_Pi_math' ∉ [obj_Pi_math] → obj_Pi_math ≠ obj_Pi_math').
Proof.
  split; [reflexivity|].
  exact (Insert_conflict_atomic st_Pi 1%positive (mkScope None [obj_Pi_math])
           obj_Pi_math' eq_refl).
Defined.

(** A redeclaration leaves one entry, the original; a declaration of a
    different identity is appended after it. *)
Example redeclaration :
  Insert st_Pi (Some 1%positive) (Some obj_Pi_math') = Ok (st_Pi, Some obj_Pi_math)
  ∧ Insert st_Pi (Some 1%positive) (Some obj_Pi_p) = Ok (st_Pi, Some obj_Pi_math)
  ∧ NumEntries st_Pi (Some 1%positive) = Ok 1
  ∧ NumEntries (exec_Insert st_Pi 1 obj_x_p) (Some 1%positive) = Ok 2
  ∧ At (exec_Insert st_Pi 1 obj_x_p) (Some 1%positive) 1 = Ok obj_x_p.
Proof. by split_and!. Qed.


(** The object ends up declared in both scopes, owned by the first. *)
Example owner_is_first_scope :
  scopes st_x_in_both !! 1%positive = Some (mkScope None [obj_x_p])
  ∧ scopes st_x_in_both !! 2%positive = Some (mkScope None [obj_x_p])
  ∧ ObjParent st_x_in_both obj_x_p = Some 1%positive.
Proof. by split_and!. Qed.

(** C5, witness: three objects with distinct identities declared in the
    empty root scope. *)
Lemma insert_all_order_witness :
  scopes st_root !! 1%positive = Some (mkScope None [])
  ∧ pairwise_distinct [obj_x_p; obj_x_q; obj_Pi_math]
  ∧ ∃ st', insert_all st_root (Some 1%positive) [obj_x_p; obj_x_q; obj_Pi_math]
             = Ok (st', replicate 3 None)
      ∧ NumEntries st' (Some 1%positive) = Ok 3
      ∧ ∀ (i : nat) o, [obj_x_p; obj_x_q; obj_Pi_math] !! i = Some o →
          At st' (Some 1%positive) (Z.of_nat i) = Ok o.
Proof.
  assert (pairwise_distinct [obj_x_p; obj_x_q; obj_Pi_math]) as Hd.
  { intros i j a b Hne Hi Hj Hm.
    destruct i as [|[|[|i]]]; destruct j as [|[|[|j]]];
      simpl in Hi, Hj; try discriminate; try lia;
      injection Hi as <-; injection Hj as <-;
      destruct Hm as [Hn Hm]; try discriminate;
      destruct Hm; discriminate. }
  split; [reflexivity|]. split; [exact Hd|].
  exact (insert_all_order st_root 1%positive (mkScope None [])
           [obj_x_p; obj_x_q; obj_Pi_math] eq_refl eq_refl Hd).
Defined.

Example declaration_order :
  insert_all st_root (Some 1%positive) [obj_x_p; obj_x_q; obj_Pi_math]
    = Ok (exec_Insert st_x_pq 1 obj_Pi_math, [None; None; None])
  ∧ At (exec_Insert st_x_pq 1 obj_Pi_math) (Some 1%positive) 0 = Ok obj_x_p
  ∧ At (exec_Insert st_x_pq 1 obj_Pi_math) (Some 1%positive) 1 = Ok obj_x_q
  ∧ At (exec_Insert st_x_pq 1 obj_Pi_math) (Some 1%positive) 2 = Ok obj_Pi_math
  ∧ At (exec_Insert st_x_pq 1 obj_Pi_math) (Some 1%positive) 3 = Panic.
Proof. by split_and!. Qed.

(** *** The nil scope *)

(** C6, witness: the nil scope next to the empty root scope. *)
Lemma nil_scope_like_empty_scope_witness :
  scopes st_root !! 1%positive = Some (mkScope None [])
  ∧ (NumEntries st_root None = Ok 0
     ∧ IsEmpty st_root None = Ok true
     ∧ Index st_root None (Some pkg_p) "x" = Ok (-1)
     ∧ Lookup st_root None (Some pkg_p) "x" = Ok None
     ∧ LookupParent 0 st_root None "x" = Some (Ok None))
  ∧ NumEntries st_root (Some 1%positive) = NumEntries st_root None
  ∧ IsEmpty st_root (Some 1%positive) = IsEmpty st_root None
  ∧ Index st_root (Some 1%positive) (Some pkg_p) "x"
      = Index st_root None (Some pkg_p) "x"
  ∧ Lookup st_root (Some 1%positive) (Some pkg_p) "x"
      = Lookup st_root None (Some pkg_p) "x"
  ∧ LookupParent 1 st_root (Some 1%positive) "x"
      = LookupParent 0 st_root None "x"
  ∧ (parent (mkScope None []) = None →
     LookupParent 1 st_root (Some 1%positive) "x"
       = LookupParent 0 st_root None "x").
Proof.
  split; [reflexivity|].
  destruct (nil_scope_like_empty_scope st_root (Some pkg_p) "x" 0)
    as [Hnil Hempty].
  split; [exact Hnil|].
  exact (Hempty 1%positive (mkScope None []) eq_refl eq_refl).
Defined.

(** C6, counterexample: scope 2 has zero entries and its parent declares
    [x].  [LookupParent] from the nil scope answers not-found; from the
    empty scope it never does, whatever the fuel: it answers the parent's
    [x] as soon as it returns. *)
Lemma nil_scope_like_empty_scope_counterexample :
  scopes st_parent_x !! 2%positive = Some (mkScope (Some 1%positive) [])
  ∧ NumEntries st_parent_x (Some 2%positive) = Ok 0
  ∧ LookupParent 2 st_parent_x None "x" = Some (Ok None)
  ∧ LookupParent 2 st_parent_x (Some 2%positive) "x" = Some (Ok (Some obj_x_p))
  ∧ ∀ fuel, LookupParent fuel st_parent_x (Some 2%positive) "x"
              ≠ Some (Ok None).
Proof.
  split_and!; [reflexivity..|].
  intros [|[|fuel]]; [discriminate..|].
  change (LookupParent (S (S fuel)) st_parent_x (Some 2%positive) "x")
    with (Some (Ok (Some obj_x_p))).
  discriminate.
Qed.

(** [String] on the nil scope, on an empty scope and on a scope with entries. *)
Example rendering :
  Scope_String st_x_pq None = Ok "scope {}"
  ∧ Scope_String st_root (Some 1%positive)
      = Ok ("scope 0x1 {}" +:+ newline)
  ∧ Scope_String st_x_pq (Some 1%positive)
      = Ok ("scope 0x1 {" +:+ newline
            +:+ tab +:+ "x" +:+ tab +:+ "*types.Var" +:+ newline
            +:+ tab +:+ "x" +:+ tab +:+ "*types.Var" +:+ newline
            +:+ "}" +:+ newline).
Proof. split_and!; [reflexivity|vm_compute; reflexivity..]. Qed.

(** *** Further properties *)

Lemma reachable_st_x_p : reachable st_x_p.
Proof.
  eapply rtc_r; [apply reachable_st_root|].
  by apply (step_Insert st_root (Some 1%positive) (Some obj_x_p) st_x_p None).
Qed.

Lemma reachable_st_x_pq : reachable st_x_pq.
Proof.
  eapply rtc_r; [apply reachable_st_x_p|].
  by apply (step_Insert st_x_p (Some 1%positive) (Some obj_x_q) st_x_pq None).
Qed.

(** X2, witness: the second of two entries. *)
Lemma At_bounds_witness :
  scopes st_x_pq !! 1%positive = Some (mkScope None [obj_x_p; obj_x_q])
  ∧ ∃ n, NumEntries st_x_pq (Some 1%positive) = Ok n
      ∧ 0 ≤ n
      ∧ (∀ o, At st_x_pq (Some 1%positive) 1 = Ok o
              ↔ 0 ≤ 1 < n ∧ [obj_x_p; obj_x_q] !! Z.to_nat 1 = Some o)
      ∧ (At st_x_pq (Some 1%positive) 1 = Panic ↔ 1 < 0 ∨ n ≤ 1).
Proof.
  split; [reflexivity|].
  exact (At_bounds st_x_pq 1%positive (mkScope None [obj_x_p; obj_x_q]) 1
           eq_refl).
Defined.

(** X3, witness: [x] queried from [q] is the entry at position 1. *)
Lemma Lookup_At_Index_witness :
  scopes st_x_pq !! 1%positive = Some (mkScope None [obj_x_p; obj_x_q])
  ∧ -1 ≤ 1 < Z.of_nat (length [obj_x_p; obj_x_q])
  ∧ (1 = -1 → Lookup st_x_pq (Some 1%positive) (Some pkg_q) "x" = Ok None)
  ∧ (0 ≤ 1 → ∃ o, At st_x_pq (Some 1%positive) 1 = Ok o
                ∧ Lookup st_x_pq (Some 1%positive) (Some pkg_q) "x"
                    = Ok (Some o)
                ∧ Name o = "x").
Proof.
  split; [reflexivity|].
  exact (Lookup_At_Index st_x_pq 1%positive (mkScope None [obj_x_p; obj_x_q])
           (Some pkg_q) "x" eq_refl).
Defined.

(** X13, witness: the empty root scope. *)
Lemma IsEmpty_NumEntries_witness :
  scopes st_root !! 1%positive = Some (mkScope None [])
  ∧ ∃ b n, IsEmpty st_root (Some 1%positive) = Ok b
      ∧ NumEntries st_root (Some 1%positive) = Ok n
      ∧ (b = true ↔ n = 0)
      ∧ (b = true → ∀ i pkg name,
           At st_root (Some 1%positive) i = Panic
           ∧ Index st_root (Some 1%positive) pkg name = Ok (-1)
           ∧ Lookup st_root (Some 1%positive) pkg name = Ok None)
      ∧ (b = false → ∃ o, At st_root (Some 1%positive) 0 = Ok o
                        ∧ [] !! 0%nat = Some o).
Proof.
  split; [reflexivity|].
  exact (IsEmpty_NumEntries st_root 1%positive (mkScope None []) eq_refl).
Defined.

(** X4, witness: the built-in [x] queried from [p]. *)
Lemma Index_qualified_outcome_witness :
  scopes st_universe !! 1%positive = Some (mkScope None [obj_x_builtin])
  ∧ (∀ i, Index st_universe (Some 1%positive) (Some pkg_p) "x" = Ok i →
          first_match (qualified_match pkg_p "x") [obj_x_builtin] i)
  ∧ (Index st_universe (Some 1%positive) (Some pkg_p) "x" = Panic
     ↔ IsExported "x" = false
       ∧ ∃ (k : nat) e, [obj_x_builtin] !! k = Some e ∧ Name e = "x"
           ∧ Pkg e = None
           ∧ ∀ j a, [obj_x_builtin] !! j = Some a → (j < k)%nat →
                    ¬ qualified_match pkg_p "x" a).
Proof.
  split; [reflexivity|].
  exact (Index_qualified_outcome st_universe 1%positive
           (mkScope None [obj_x_builtin]) pkg_p "x" eq_refl).
Defined.

(** X5, witness: [x] of [p] declared in the empty root scope. *)
Lemma Insert_then_Lookup_witness :
  scopes st_root !! 1%positive = Some (mkScope None [])
  ∧ Insert st_root (Some 1%positive) (Some obj_x_p) = Ok (st_x_p, None)
  ∧ Lookup st_x_p (Some 1%positive) (Pkg obj_x_p) (Name obj_x_p)
      = Ok (Some obj_x_p)
  ∧ Index st_x_p (Some 1%positive) (Pkg obj_x_p) (Name obj_x_p)
      = NumEntries st_root (Some 1%positive)
  ∧ NumEntries st_x_p (Some 1%positive) = Ok (Z.of_nat (length (@nil Object)) + 1).
Proof.
  split; [reflexivity|]. split; [reflexivity|].
  exact (Insert_then_Lookup st_root 1%positive (mkScope None []) obj_x_p
           st_x_p eq_refl eq_refl).
Defined.

(** X6, witness: [x] of [p] declared twice in the root scope. *)
Lemma Insert_twice_witness :
  Insert st_root (Some 1%positive) (Some obj_x_p) = Ok (st_x_p, None)
  ∧ Insert st_x_p (Some 1%positive) (Some obj_x_p) = Ok (st_x_p, Some obj_x_p).
Proof.
  split; [reflexivity|].
  exact (Insert_twice st_root 1%positive obj_x_p st_x_p eq_refl).
Defined.

(** X7, witness: declaring [x] of [q] after [x] of [p]. *)
Lemma Insert_stable_witness :
  Insert st_x_p (Some 1%positive) (Some obj_x_q) = Ok (st_x_pq, None)
  ∧ scopes st_x_p !! 1%positive = Some (mkScope None [obj_x_p])
  ∧ ∃ sc', scopes st_x_pq !! 1%positive = Some sc'
      ∧ parent sc' = None
      ∧ [obj_x_p] `prefix_of` entries sc'
      ∧ (Some 1%positive ≠ Some 1%positive → sc' = mkScope None [obj_x_p])
      ∧ (∀ (i : nat) o, [obj_x_p] !! i = Some o →
                        At st_x_pq (Some 1%positive) (Z.of_nat i) = Ok o)
      ∧ (∀ pkg name a,
           Lookup st_x_p (Some 1%positive) pkg name = Ok (Some a) →
           Lookup st_x_pq (Some 1%positive) pkg name = Ok (Some a)).
Proof.
  split; [reflexivity|]. split; [reflexivity|].
  exact (Insert_stable st_x_p (Some 1%positive) (Some obj_x_q) st_x_pq None
           1%positive (mkScope None [obj_x_p]) eq_refl eq_refl).
Defined.

(** X19, witness: a built-in declared where [x] of [p] already is. *)
Lemma Insert_returns_witness :
  scopes st_x_p !! 1%positive = Some (mkScope None [obj_x_p])
  ∧ Pkg obj_x_builtin = None
  ∧ ∃ st' alt, Insert st_x_p (Some 1%positive) (Some obj_x_builtin)
                 = Ok (st', alt).
Proof.
  split; [reflexivity|]. split; [reflexivity|].
  apply (Insert_returns st_x_p 1%positive (mkScope None [obj_x_p])
           obj_x_builtin eq_refl).
  left. reflexivity.
Defined.

(** X15, witness: [Pi], a second [Pi] and [x] declared in the root scope. *)
Lemma insert_all_accepted_witness :
  scopes st_root !! 1%positive = Some (mkScope None [])
  ∧ insert_all st_root (Some 1%positive) [obj_Pi_math; obj_Pi_math'; obj_x_p]
      = Ok (exec_Insert st_Pi 1 obj_x_p, [None; Some obj_Pi_math; None])
  ∧ length [None; Some obj_Pi_math; None]
      = length [obj_Pi_math; obj_Pi_math'; obj_x_p]
  ∧ scopes (exec_Insert st_Pi 1 obj_x_p) !! 1%positive
      = Some (mkScope None
                ([] ++ accepted [obj_Pi_math; obj_Pi_math'; obj_x_p]
                         [None; Some obj_Pi_math; None]))
  ∧ ∀ r', r' ≠ 1%positive →
          scopes (exec_Insert st_Pi 1 obj_x_p) !! r' = scopes st_root !! r'.
Proof.
  split; [reflexivity|]. split; [reflexivity|].
  exact (insert_all_accepted st_root 1%positive (mkScope None [])
           [obj_Pi_math; obj_Pi_math'; obj_x_p] (exec_Insert st_Pi 1 obj_x_p)
           [None; Some obj_Pi_math; None] eq_refl eq_refl).
Defined.

(** X8, witness: the two entries spelled [x] of one scope. *)
Lemma reachable_same_name_witness :
  reachable st_x_pq
  ∧ scopes st_x_pq !! 1%positive = Some (mkScope None [obj_x_p; obj_x_q])
  ∧ IsExported (Name obj_x_p) = false
  ∧ ∃ p q, Pkg obj_x_p = Some p ∧ Pkg obj_x_q = Some q ∧ path p ≠ path q.
Proof.
  split; [apply reachable_st_x_pq|]. split; [reflexivity|].
  apply (reachable_same_name st_x_pq 1%positive
           (mkScope None [obj_x_p; obj_x_q]) 0 1 obj_x_p obj_x_q).
  - apply reachable_st_x_pq.
  - reflexivity.
  - reflexivity.
  - reflexivity.
  - lia.
  - reflexivity.
Defined.

(** X9, witness: the scope declaring [x] of [p] and [x] of [q], and the
    scope declaring only the built-in [x]. *)
Lemma reachable_match_unique_witness :
  (reachable st_x_pq
   ∧ scopes st_x_pq !! 1%positive = Some (mkScope None [obj_x_p; obj_x_q])
   ∧ NoDup [obj_x_p; obj_x_q]
   ∧ ∀ q name a b, a ∈ [obj_x_p; obj_x_q] → b ∈ [obj_x_p; obj_x_q] →
       qualified_match q name a → qualified_match q name b → a = b)
  ∧ (reachable st_universe
     ∧ scopes st_universe !! 1%positive = Some (mkScope None [obj_x_builtin])
     ∧ NoDup [obj_x_builtin]).
Proof.
  split.
  - split; [apply reachable_st_x_pq|]. split; [reflexivity|].
    exact (reachable_match_unique st_x_pq 1%positive
             (mkScope None [obj_x_p; obj_x_q]) reachable_st_x_pq eq_refl).
  - split; [apply reachable_st_universe|]. split; [reflexivity|].
    exact (proj1 (reachable_match_unique st_universe 1%positive
                    (mkScope None [obj_x_builtin]) reachable_st_universe
                    eq_refl)).
Defined.

(** X10, witness: from one to two declarations in the root scope. *)
Lemma steps_monotone_witness :
  rtc step st_x_p st_x_pq
  ∧ scopes st_x_p !! 1%positive = Some (mkScope None [obj_x_p])
  ∧ ∃ sc', scopes st_x_pq !! 1%positive = Some sc'
      ∧ parent sc' = None
      ∧ [obj_x_p] `prefix_of` entries sc'
      ∧ ∀ (i : nat) o, [obj_x_p] !! i = Some o →
          At st_x_pq (Some 1%positive) (Z.of_nat i) = Ok o.
Proof.
  assert (rtc step st_x_p st_x_pq) as Hsteps.
  { apply rtc_once.
    by apply (step_Insert st_x_p (Some 1%positive) (Some obj_x_q) st_x_pq None). }
  split; [exact Hsteps|]. split; [reflexivity|].
  exact (steps_monotone st_x_p st_x_pq 1%positive (mkScope None [obj_x_p])
           Hsteps eq_refl).
Defined.

(** X11, witness: [x] searched from the empty child of a scope declaring it. *)
Lemma LookupParent_finds_witness :
  segment st_parent_x (Some 2%positive) [2%positive; 1%positive] None
  ∧ ∃ res, LookupParent 2 st_parent_x (Some 2%positive) "x" = Some (Ok res)
      ∧ match res with
        | Some o =>
            ∃ pre t post, [2%positive; 1%positive] = pre ++ t :: post
              ∧ (∀ r', r' ∈ pre →
                       Lookup st_parent_x (Some r') None "x" = Ok None)
              ∧ Lookup st_parent_x (Some t) None "x" = Ok (Some o)
        | None =>
            ∀ r', r' ∈ [2%positive; 1%positive] →
                  Lookup st_parent_x (Some r') None "x" = Ok None
        end.
Proof.
  assert (segment st_parent_x (Some 2%positive) [2%positive; 1%positive] None)
    as Hseg.
  { apply (segment_cons _ 2%positive (mkScope (Some 1%positive) [])
             [1%positive] None); [reflexivity|].
    apply (segment_cons _ 1%positive (mkScope None [obj_x_p]) [] None);
      [reflexivity|apply segment_nil]. }
  split; [exact Hseg|].
  apply (LookupParent_finds st_parent_x 2%positive [2%positive; 1%positive]
           "x" 2 Hseg).
  simpl. lia.
Defined.

(** X12, witness: a search from the universe-like scope. *)
Lemma reachable_LookupParent_bound_witness :
  reachable st_universe
  ∧ is_Some (scopes st_universe !! 1%positive)
  ∧ ∃ res, LookupParent (size (scopes st_universe)) st_universe
             (Some 1%positive) "y" = Some (Ok res).
Proof.
  assert (is_Some (scopes st_universe !! 1%positive)) as Hr
    by (by exists (mkScope None [obj_x_builtin])).
  split; [apply reachable_st_universe|]. split; [exact Hr|].
  exact (reachable_LookupParent_bound st_universe 1%positive "y"
           reachable_st_universe Hr).
Defined.

(** X14, witness: the empty root scope rendered. *)
Lemma Scope_String_nil_distinct_witness :
  scopes st_root !! 1%positive = Some (mkScope None [])
  ∧ ∃ str, Scope_String st_root (Some 1%positive) = Ok str
      ∧ Scope_String st_root None = Ok "scope {}"
      ∧ (10 + String.length (fmt_pointer 1%positive) ≤ String.length str)%nat
      ∧ str ≠ "scope {}".
Proof.
  split; [reflexivity|].
  exact (Scope_String_nil_distinct st_root 1%positive (mkScope None [])
           eq_refl).
Defined.

(** X16, witness: [x] queried from the unrelated package [r]. *)
Lemma Lookup_unrelated_package_witness :
  scopes st_x_pq !! 1%positive = Some (mkScope None [obj_x_p; obj_x_q])
  ∧ IsExported "x" = false
  ∧ Lookup st_x_pq (Some 1%positive) (Some pkg_r) "x" = Ok None.
Proof.
  split; [reflexivity|]. split; [reflexivity|].
  apply (Lookup_unrelated_package st_x_pq 1%positive
           (mkScope None [obj_x_p; obj_x_q]) pkg_r "x" eq_refl eq_refl).
  intros o Ho _.
  apply elem_of_cons in Ho as [->|Ho]; [by exists pkg_p|].
  apply elem_of_cons in Ho as [->|Ho]; [by exists pkg_q|].
  by apply elem_of_nil in Ho.
Defined.

(** X17, witness: [Pi] queried from the package [r]. *)
Lemma Lookup_exported_any_qualifier_witness :
  scopes st_Pi !! 1%positive = Some (mkScope None [obj_Pi_math])
  ∧ IsExported "Pi" = true
  ∧ Index st_Pi (Some 1%positive) (Some pkg_r) "Pi"
      = Index st_Pi (Some 1%positive) None "Pi"
  ∧ Lookup st_Pi (Some 1%positive) (Some pkg_r) "Pi"
      = Lookup st_Pi (Some 1%positive) None "Pi".
Proof.
  split; [reflexivity|]. split; [reflexivity|].
  exact (Lookup_exported_any_qualifier st_Pi 1%positive
           (mkScope None [obj_Pi_math]) pkg_r "Pi" eq_refl eq_refl).
Defined.

(** X18, witness: [x] queried from [q] answers the [x] of [q]. *)
Lemma Lookup_same_origin_only_witness :
  scopes st_x_pq !! 1%positive = Some (mkScope None [obj_x_p; obj_x_q])
  ∧ IsExported "x" = false
  ∧ Lookup st_x_pq (Some 1%positive) (Some pkg_q) "x" = Ok (Some obj_x_q)
  ∧ obj_x_q ∈ [obj_x_p; obj_x_q]
  ∧ Name obj_x_q = "x"
  ∧ path <$> Pkg obj_x_q = Some (path pkg_q).
Proof.
  split; [reflexivity|]. split; [reflexivity|]. split; [reflexivity|].
  exact (Lookup_same_origin_only st_x_pq 1%positive
           (mkScope None [obj_x_p; obj_x_q]) pkg_q "x" obj_x_q
           eq_refl eq_refl eq_refl).
Defined.

End Samples.
